(** * crypt: AES-256-GCM whole-buffer codec and chunked stream reader/writer

    A shallow embedding of [crypt.go] (package [crypt]) and the properties
    of its specification.

    Conventions of the embedding.
    - A Go [[]byte] is a [list byte]; a nil slice and an empty slice are both
      [[]] (the code only observes their length and contents).
    - A Go [int] is a [Z] wrapped to 64 bits where the code does arithmetic on
      it ([total]); lengths are [nat].
    - A Go call either returns or panics: [outcome].  A Go [(value, error)]
      result is a pair whose second component is an [option error]
      ([None] is the nil error).
    - [crypto/aes], [crypto/cipher], [crypto/rand] and the [io.Reader] /
      [io.Writer] behind a stream are not part of the package: the AEAD
      primitive, the random source, the sink and the source are interfaces
      (type classes) with the contract their documentation gives. *)

From Stdlib Require Import List ZArith Lia Bool Arith PeanoNat.
From Stdlib Require Import Init.Byte Strings.Byte NArith.
Import ListNotations.

Set Implicit Arguments.
Open Scope nat_scope.

(* ================================================================== *)
(** ** Go runtime: panics, errors, integers, slices *)

Inductive panic : Type :=
| NilDereference          (* nil pointer or nil interface used *)
| SliceBounds             (* slice bounds out of range *)
| MakeLenOutOfRange       (* make([]byte, n) with n < 0 *)
| NoncePanic              (* newNonce: the random source failed *)
| IncorrectNonceLength.   (* cipher: incorrect nonce length given to GCM *)

Inductive outcome (A : Type) : Type :=
| Ret (a : A)
| Panics (why : panic).
Arguments Ret {A} a.
Arguments Panics {A} why.

Definition bind {A B} (m : outcome A) (k : A -> outcome B) : outcome B :=
  match m with
  | Ret a => k a
  | Panics why => Panics why
  end.

Notation "x <- m ;; k" := (bind m (fun x => k))
  (at level 61, m at next level, right associativity).

Inductive error : Type :=
| ErrCiphertextTooSmall   (* "ciphertext can't be smaller then gcm.NonceSize" *)
| ErrBufferTooSmall       (* "buffer can't be smaller then gcm.NonceSize" *)
| ErrOpen                 (* cipher: message authentication failed *)
| KeySizeError (n : nat)  (* aes: invalid key size *)
| ErrNotBlock128          (* cipher: NewGCM requires 128-bit block cipher *)
| EOF                     (* io.EOF *)
| ErrUnexpectedEOF        (* io.ErrUnexpectedEOF *)
| ErrIO (code : nat).     (* any other error of the sink or the source *)

(** 64-bit two's complement wrap-around of Go's [int]. *)
Definition wrap64 (z : Z) : Z :=
  ((z + 2 ^ 63) mod 2 ^ 64 - 2 ^ 63)%Z.

(** [copy(dst, src)]: the number of bytes copied and the new contents of
    [dst]. *)
Definition copy (dst src : list byte) : nat * list byte :=
  let n := Nat.min (length dst) (length src) in
  (n, firstn n src ++ skipn n dst).

(** [make([]byte, n)] for a Go [int] [n]. *)
Definition make (n : Z) : outcome (list byte) :=
  if (n <? 0)%Z then Panics MakeLenOutOfRange
  else Ret (repeat x00 (Z.to_nat n)).

(* ================================================================== *)
(** ** Bits of a byte sequence *)

Definition bits8 : Type :=
  (bool * (bool * (bool * (bool * (bool * (bool * (bool * bool)))))))%type.

Definition bits_xor (a b : bits8) : bits8 :=
  let '(a0, (a1, (a2, (a3, (a4, (a5, (a6, a7))))))) := a in
  let '(b0, (b1, (b2, (b3, (b4, (b5, (b6, b7))))))) := b in
  (xorb a0 b0, (xorb a1 b1, (xorb a2 b2, (xorb a3 b3,
   (xorb a4 b4, (xorb a5 b5, (xorb a6 b6, xorb a7 b7))))))).

Definition byte_xor (a b : byte) : byte :=
  Byte.of_bits (bits_xor (Byte.to_bits a) (Byte.to_bits b)).

(** The byte whose only set bit is bit [j] (least significant first). *)
Definition bit_mask (j : nat) : byte :=
  Byte.of_bits (j =? 0, (j =? 1, (j =? 2, (j =? 3,
               (j =? 4, (j =? 5, (j =? 6, j =? 7))))))).

(** Flip bit [i] of a byte sequence: bit [i mod 8] of byte [i / 8]. *)
Fixpoint flip_bit (i : nat) (l : list byte) : list byte :=
  match l with
  | [] => []
  | b :: t =>
      if i <? 8 then byte_xor b (bit_mask i) :: t
      else b :: flip_bit (i - 8) t
  end.

(* ================================================================== *)
(** ** crypto/aes and crypto/cipher: the AEAD primitive *)

(** The primitive behind [cipher.AEAD] for AES-GCM, keyed by the raw key
    bytes: the encryption of a plaintext under a nonce (length preserving),
    the tag of a ciphertext, and the authenticated decryption of
    ciphertext || tag.  The limit of GCM on the size of one message (about
    64 GiB) is not modelled. *)
Class AEAD : Type := {
  aead_ct   : list byte -> list byte -> list byte -> list byte;
  aead_tag  : list byte -> list byte -> list byte -> list byte -> list byte;
  aead_open : list byte -> list byte -> list byte -> list byte ->
              option (list byte)
}.

Definition gcmStandardNonceSize : nat := 12.
Definition gcmTagSize : nat := 16.

(** What the primitive produces for a plaintext: ciphertext || tag. *)
Definition aead_seal `{AEAD} (key nonce plaintext ad : list byte) : list byte :=
  let ct := aead_ct key nonce plaintext in
  ct ++ aead_tag key nonce ct ad.

(** The AEAD contract (section 3 of the specification): sizes, opening what
    was sealed, and detection of a single flipped bit in nonce || ciphertext ||
    tag. *)
Class AEADLaws (A : AEAD) : Prop := {
  ct_length : forall key nonce pt,
      length (aead_ct key nonce pt) = length pt;
  tag_length : forall key nonce ct ad,
      length (aead_tag key nonce ct ad) = gcmTagSize;
  open_seal : forall key nonce pt ad,
      length nonce = gcmStandardNonceSize ->
      aead_open key nonce (aead_seal key nonce pt ad) ad = Some pt;
  open_flipped : forall key nonce pt ad i,
      length nonce = gcmStandardNonceSize ->
      i < 8 * length (nonce ++ aead_seal key nonce pt ad) ->
      let frame := flip_bit i (nonce ++ aead_seal key nonce pt ad) in
      aead_open key (firstn gcmStandardNonceSize frame)
                (skipn gcmStandardNonceSize frame) ad = None
}.

(** [cipher.Block] as returned by [aes.NewCipher]. *)
Record Block : Type := { block_key : list byte }.

Definition BlockSize (b : Block) : nat := 16.

(** [aes.NewCipher]: keys of 16, 24 or 32 bytes. *)
Definition aes_NewCipher (key : list byte) : option Block * option error :=
  match length key with
  | 16 | 24 | 32 => (Some {| block_key := key |}, None)
  | n => (None, Some (KeySizeError n))
  end.

(** The value behind a non-nil [cipher.AEAD] made by [cipher.NewGCM]. *)
Record GCM : Type := { gcm_key : list byte }.

Definition cipher_NewGCM (b : Block) : option GCM * option error :=
  if BlockSize b =? 16 then (Some {| gcm_key := block_key b |}, None)
  else (None, Some ErrNotBlock128).

(** Methods of the interface value; [None] is the nil interface. *)
Definition NonceSize (g : option GCM) : outcome nat :=
  match g with
  | Some _ => Ret gcmStandardNonceSize
  | None => Panics NilDereference
  end.

Definition Overhead (g : option GCM) : outcome nat :=
  match g with
  | Some _ => Ret gcmTagSize
  | None => Panics NilDereference
  end.

(** [Seal(dst, nonce, plaintext, additionalData)] appends to [dst]. *)
Definition Seal `{AEAD} (g : option GCM) (dst nonce plaintext ad : list byte)
  : outcome (list byte) :=
  match g with
  | None => Panics NilDereference
  | Some g =>
      if length nonce =? gcmStandardNonceSize
      then Ret (dst ++ aead_seal (gcm_key g) nonce plaintext ad)
      else Panics IncorrectNonceLength
  end.

(** [Open(dst, nonce, ciphertext, additionalData)]: the plaintext appended to
    [dst], or nil and the authentication error. *)
Definition Open `{AEAD} (g : option GCM) (dst nonce ciphertext ad : list byte)
  : outcome (list byte * option error) :=
  match g with
  | None => Panics NilDereference
  | Some g =>
      if length nonce =? gcmStandardNonceSize
      then match aead_open (gcm_key g) nonce ciphertext ad with
           | Some pt => Ret (dst ++ pt, None)
           | None => Ret ([], Some ErrOpen)
           end
      else Panics IncorrectNonceLength
  end.

(* ================================================================== *)
(** ** crypto/rand, io.Writer, io.Reader *)

(** [io.ReadFull(rand.Reader, buf)] for a buffer of [n] bytes: the bytes
    delivered (all [n], or fewer with an error) and the next state of the
    source. *)
Class RandReader (R : Type) : Type := {
  rand_ReadFull : R -> nat -> R * list byte * option error
}.

(** [Write(p)] of an [io.Writer]: the next state, the count and the error. *)
Class IoWriter (S : Type) : Type := {
  io_Write : S -> list byte -> S * Z * option error
}.

(** [Read(buf)] of an [io.Reader] for a buffer of [n] bytes: the next state,
    the bytes stored at the front of [buf] and the error. *)
Class IoReader (S : Type) : Type := {
  io_Read : S -> nat -> S * list byte * option error
}.

(* ================================================================== *)
(** ** Keys *)

(** The contents of a [[32]byte]. *)
Record key32 : Type := {
  key_bytes : list byte;
  key_len : length key_bytes = 32
}.

(** A [*[32]byte]: [None] is the nil pointer. *)
Definition key_ptr : Type := option key32.

(** [key[:]] on a [*[32]byte]. *)
Definition key_slice (key : key_ptr) : outcome (list byte) :=
  match key with
  | Some k => Ret (key_bytes k)
  | None => Panics NilDereference
  end.

(* ================================================================== *)
(** ** newGCM, newNonce, Encrypt, Decrypt *)

Definition newGCM (key : key_ptr) : outcome (option GCM * option error) :=
  k <- key_slice key ;;
  let '(block, err) := aes_NewCipher k in
  match err, block with
  | Some e, _ => Ret (None, Some e)
  | None, None => Panics NilDereference
  | None, Some b =>
      let '(gcm, err) := cipher_NewGCM b in
      Ret (gcm, err)
  end.

Definition newNonce {R} `{RandReader R} (size : nat) (rnd : R)
  : outcome (list byte) * R :=
  let '(rnd', nonce, err) := rand_ReadFull rnd size in
  match err with
  | Some _ => (Panics NoncePanic, rnd')
  | None =>
      if length nonce =? size then (Ret nonce, rnd')
      else (Panics NoncePanic, rnd')
  end.

Definition Encrypt {R} `{AEAD} `{RandReader R}
  (plaintext : list byte) (key : key_ptr) (rnd : R)
  : outcome (list byte * option error) * R :=
  match newGCM key with
  | Panics why => (Panics why, rnd)
  | Ret (_, Some e) => (Ret ([], Some e), rnd)
  | Ret (gcm, None) =>
      match NonceSize gcm with
      | Panics why => (Panics why, rnd)
      | Ret size =>
          match newNonce size rnd with
          | (Panics why, rnd') => (Panics why, rnd')
          | (Ret nonce, rnd') =>
              (ct <- Seal gcm nonce nonce plaintext [] ;; Ret (ct, None), rnd')
          end
      end
  end.

(** The body of [Decrypt] after the call of [newGCM]: the error of the
    factory is bound to [err] and overwritten by the result of [Open] without
    being read. *)
Definition Decrypt_with `{AEAD} (ciphertext : list byte)
  (gcm : option GCM) (err : option error)
  : outcome (list byte * option error) :=
  size <- NonceSize gcm ;;
  if length ciphertext <? size then Ret ([], Some ErrCiphertextTooSmall)
  else
    (* ciphertext[:size] and ciphertext[size:], in bounds after the check *)
    Open gcm [] (firstn size ciphertext) (skipn size ciphertext) [].

Definition Decrypt `{AEAD} (ciphertext : list byte) (key : key_ptr)
  : outcome (list byte * option error) :=
  r <- newGCM key ;;
  Decrypt_with ciphertext (fst r) (snd r).

(* ================================================================== *)
(** ** Writer *)

(** The [Writer] struct.  The sink behind [w.w] and the backing array of
    [w.buf] are shared with every copy of the struct (the methods have value
    receivers), so their current contents travel in the state below. *)
Record Writer : Type := {
  w_gcm : option GCM;
  w_buf : list byte
}.

(** What a call of [Write] can change: the sink, the random source, the
    contents of [w.buf] ([w_buf] holds them at the time of the call), the
    local [total]; and, as a record of the effects performed, the byte slices
    handed to the sink and the nonces drawn. *)
Record WriteState (S R : Type) : Type := {
  ws_sink : S;
  ws_rand : R;
  ws_buf : list byte;
  ws_total : Z;
  ws_writes : list (list byte);
  ws_nonces : list (list byte)
}.

Inductive iter_result (S R : Type) : Type :=
| Continue (st : WriteState S R)
| Returns (total : Z) (err : option error) (st : WriteState S R)
| Panicked (why : panic) (st : WriteState S R).
Arguments Continue {S R} st.
Arguments Returns {S R} total err st.
Arguments Panicked {S R} why st.

(** The state in which an iteration leaves the call. *)
Definition iter_state {S R} (r : iter_result S R) : WriteState S R :=
  match r with
  | Continue st => st
  | Returns _ _ st => st
  | Panicked _ st => st
  end.

(** The method set of [Writer]: [Write] is its only method. *)
Inductive WriterMethod : Type :=
| Method_Write (p : list byte).

Section WriterModel.
Context {S R : Type} `{AEAD} `{IoWriter S} `{RandReader R}.

(** One iteration of the [for len(p) != 0] loop of [Write]; [p] is not
    reassigned by the body. *)
Definition Write_iter (gcm : option GCM) (p : list byte)
  (st : WriteState S R) : iter_result S R :=
  let '(n, buf') := copy (ws_buf st) p in
  let total1 := wrap64 (ws_total st + Z.of_nat n) in
  let st1 := {| ws_sink := ws_sink st; ws_rand := ws_rand st;
                ws_buf := buf'; ws_total := total1;
                ws_writes := ws_writes st; ws_nonces := ws_nonces st |} in
  if n =? length (ws_buf st) then
    match NonceSize gcm with
    | Panics why => Panicked why st1
    | Ret size =>
        let '(drawn, rnd') := newNonce size (ws_rand st) in
        let st2 := {| ws_sink := ws_sink st; ws_rand := rnd';
                      ws_buf := buf'; ws_total := total1;
                      ws_writes := ws_writes st;
                      ws_nonces := ws_nonces st |} in
        match drawn with
        | Panics why => Panicked why st2
        | Ret nonce =>
            match Seal gcm nonce nonce p [] with
            | Panics why => Panicked why st2
            | Ret ciphertext =>
                (* nw, err := w.w.Write(w.buf) *)
                let '(sink', nw, err) := io_Write (ws_sink st) buf' in
                let st3 total :=
                  {| ws_sink := sink'; ws_rand := rnd';
                     ws_buf := buf'; ws_total := total;
                     ws_writes := ws_writes st ++ [buf'];
                     ws_nonces := ws_nonces st ++ [nonce] |} in
                match err with
                | Some e =>
                    Returns (wrap64 (total1 + nw)) (Some e) (st3 total1)
                | None =>
                    (* else if nw != len(ciphertext): assigns the [err] of
                       this block, which nothing reads afterwards *)
                    Continue (st3 (wrap64 (total1 + nw)))
                end
            end
        end
    end
  else Continue st1.

(** The loop of [Write], for at most [fuel] iterations: [None] when the
    loop is still running after them. *)
Fixpoint Write_loop (fuel : nat) (gcm : option GCM) (p : list byte)
  (st : WriteState S R)
  : option (outcome (Z * option error) * WriteState S R) :=
  match fuel with
  | 0 => None
  | Datatypes.S fuel' =>
      if length p =? 0 then Some (Ret (ws_total st, None), st)
      else
        match Write_iter gcm p st with
        | Continue st' => Write_loop fuel' gcm p st'
        | Returns total err st' => Some (Ret (total, err), st')
        | Panicked why st' => Some (Panics why, st')
        end
  end.

(** The state of the call after [k] iterations of the loop, or the state
    in which the call ended when it ends before. *)
Fixpoint Write_progress (k : nat) (gcm : option GCM) (p : list byte)
  (st : WriteState S R) : WriteState S R :=
  match k with
  | 0 => st
  | Datatypes.S k' =>
      if length p =? 0 then st
      else
        match Write_iter gcm p st with
        | Continue st' => Write_progress k' gcm p st'
        | Returns _ _ st' => st'
        | Panicked _ st' => st'
        end
  end.

(** The state in which [w.Write(p)] starts. *)
Definition Write_init (sink : S) (rnd : R) (buf : list byte)
  : WriteState S R :=
  {| ws_sink := sink; ws_rand := rnd; ws_buf := buf; ws_total := 0%Z;
     ws_writes := []; ws_nonces := [] |}.

Definition Write (fuel : nat) (w : Writer) (p : list byte)
  (sink : S) (rnd : R) :=
  Write_loop fuel (w_gcm w) p (Write_init sink rnd (w_buf w)).

(** The state of a method call on [w] after [k] steps. *)
Definition call_progress (k : nat) (m : WriterMethod) (w : Writer)
  (sink : S) (rnd : R) : WriteState S R :=
  match m with
  | Method_Write p =>
      Write_progress k (w_gcm w) p (Write_init sink rnd (w_buf w))
  end.

End WriterModel.

Definition NewWriter (key : key_ptr) (bufSize : Z)
  : outcome (option Writer * option error) :=
  let bufSize := if (bufSize =? 0)%Z then 1024%Z else bufSize in
  r <- newGCM key ;;
  match snd r with
  | Some e => Ret (None, Some e)
  | None =>
      buf <- make bufSize ;;
      Ret (Some {| w_gcm := fst r; w_buf := buf |}, None)
  end.

(* ================================================================== *)
(** ** Reader *)

(** The [Reader] struct; the source behind [r.r] is threaded separately. *)
Record Reader : Type := {
  r_gcm : option GCM;
  r_buf : list byte
}.

(** The source and the sizes of the buffers passed to its [Read], in call
    order. *)
Record ReadState (S : Type) : Type := {
  rs_src : S;
  rs_reads : list nat
}.

Section ReaderModel.
Context {S : Type} `{AEAD} `{IoReader S}.

(** [r.Read(p)]: the result, the contents of [p] afterwards, and the
    source. *)
Definition Read (r : Reader) (p : list byte) (st : ReadState S)
  : outcome (nat * option error) * list byte * ReadState S :=
  match NonceSize (r_gcm r) with
  | Panics why => (Panics why, p, st)
  | Ret size =>
      if length p <? size then (Ret (0, Some ErrBufferTooSmall), p, st)
      else
        match Overhead (r_gcm r) with
        | Panics why => (Panics why, p, st)
        | Ret overhead =>
            (* buf := make([]byte, len(p)+overhead); n, err := r.r.Read(buf) *)
            let req := length p + overhead in
            let '(src', data, err) := io_Read (rs_src st) req in
            let st' := {| rs_src := src';
                          rs_reads := rs_reads st ++ [req] |} in
            match err with
            | Some e => (Ret (0, Some e), p, st')
            | None =>
                let n := length data in
                (* ciphertext := buf[:n] *)
                if req <? n then (Panics SliceBounds, p, st')
                (* ciphertext[size:] is ciphertext[size:n] *)
                else if n <? size then (Panics SliceBounds, p, st')
                else
                  match Open (r_gcm r) [] (firstn size data)
                             (skipn size data) [] with
                  | Panics why => (Panics why, p, st')
                  | Ret (_, Some e) => (Ret (0, Some e), p, st')
                  | Ret (b, None) =>
                      let '(m, p') := copy p b in
                      (Ret (m, None), p', st')
                  end
            end
        end
  end.

End ReaderModel.

Definition NewReader (key : key_ptr) (bufSize : Z)
  : outcome (option Reader * option error) :=
  let bufSize := if (bufSize =? 0)%Z then 1024%Z else bufSize in
  r <- newGCM key ;;
  match snd r with
  | Some e => Ret (None, Some e)
  | None =>
      buf <- make bufSize ;;
      Ret (Some {| r_gcm := fst r; r_buf := buf |}, None)
  end.

(* ================================================================== *)
(** ** Concrete collaborators, to run the code on inputs *)

(** A random source that serves the bytes of a finite tape and fails when
    the tape cannot fill the buffer. *)
#[export] Instance TapeRand : RandReader (list byte) := {
  rand_ReadFull tape n :=
    if n <=? length tape then (skipn n tape, firstn n tape, None)
    else match tape with
         | [] => ([], [], Some EOF)
         | _ => ([], tape, Some ErrUnexpectedEOF)
         end
}.

(** A random source that never fails: draw number [c] is filled with the
    byte of value [c mod 2]. *)
#[export] Instance CounterRand : RandReader nat := {
  rand_ReadFull c n :=
    (Datatypes.S c, repeat (if Nat.even c then x00 else x01) n, None)
}.

(** [bytes.Buffer] as a sink: appends everything. *)
#[export] Instance BufferSink : IoWriter (list byte) := {
  io_Write s p := (s ++ p, Z.of_nat (length p), None)
}.

(** [bytes.Reader] as a source: serves the rest of a byte slice. *)
#[export] Instance SliceSource : IoReader (list byte) := {
  io_Read s n :=
    match s with
    | [] => ([], [], Some EOF)
    | _ => (skipn n s, firstn n s, None)
    end
}.

(** A source that delivers its data in packets, at most one packet per
    [Read] (a network connection, a pipe). *)
Record packets : Type := { pending : list (list byte) }.

#[export] Instance PacketSource : IoReader packets := {
  io_Read s n :=
    match pending s with
    | [] => (s, [], Some EOF)
    | pkt :: rest =>
        if length pkt <=? n then ({| pending := rest |}, pkt, None)
        else ({| pending := skipn n pkt :: rest |}, firstn n pkt, None)
    end
}.

(** A stand-in AEAD for running the code: the ciphertext is the plaintext
    with every byte xored with the first key byte, the tag is the parity of
    the bits of nonce || ciphertext followed by fifteen zero bytes. *)
Definition byte_parity (b : byte) : bool :=
  let '(b0, (b1, (b2, (b3, (b4, (b5, (b6, b7))))))) := Byte.to_bits b in
  xorb b0 (xorb b1 (xorb b2 (xorb b3 (xorb b4 (xorb b5 (xorb b6 b7)))))).

Fixpoint parity (l : list byte) : bool :=
  match l with
  | [] => false
  | b :: t => xorb (byte_parity b) (parity t)
  end.

Fixpoint bytes_eqb (a b : list byte) : bool :=
  match a, b with
  | [], [] => true
  | x :: a', y :: b' => Byte.eqb x y && bytes_eqb a' b'
  | _, _ => false
  end.

Definition parity_ct (key nonce pt : list byte) : list byte :=
  map (byte_xor (hd x00 key)) pt.

Definition parity_tag (key nonce ct ad : list byte) : list byte :=
  (if parity (nonce ++ ct) then x01 else x00) :: repeat x00 15.

Definition parity_open (key nonce sealed ad : list byte)
  : option (list byte) :=
  if length sealed <? gcmTagSize then None
  else
    let n := length sealed - gcmTagSize in
    let ct := firstn n sealed in
    let tag := skipn n sealed in
    if bytes_eqb tag (parity_tag key nonce ct ad)
    then Some (map (byte_xor (hd x00 key)) ct)
    else None.

#[export] Instance ParityAEAD : AEAD := {
  aead_ct := parity_ct;
  aead_tag := parity_tag;
  aead_open := parity_open
}.

(** Inputs used below. *)
Definition bytes_of_nats (l : list nat) : list byte :=
  map (fun n => match Byte.of_nat n with Some b => b | None => x00 end) l.

Definition demo_key : key32 :=
  {| key_bytes := repeat x2a 32; key_len := eq_refl |}.

Definition demo_gcm : option GCM :=
  Some {| gcm_key := key_bytes demo_key |}.

(** Twenty-four bytes of entropy: two nonces. *)
Definition tape24 : list byte := bytes_of_nats (seq 1 24).

(** Sixteen bytes of plaintext, "ABCDEFGHIJKLMNOP". *)
Definition chunk16 : list byte := bytes_of_nats (seq 65 16).

(** What [NewWriter(sink, key, 16)] and [NewReader(source, key, 16)]
    return. *)
Definition writer16 : Writer :=
  {| w_gcm := demo_gcm; w_buf := repeat x00 16 |}.

Definition reader16 : Reader :=
  {| r_gcm := demo_gcm; r_buf := repeat x00 16 |}.

(** The frame of the one-byte chunk "a" under the first nonce of the tape:
    29 bytes. *)
Definition frame_a : list byte :=
  firstn 12 tape24
  ++ aead_seal (key_bytes demo_key) (firstn 12 tape24) [x61] [].

(* ================================================================== *)
(** ** A sink that runs out of room *)

(** A sink with room for a bounded number of bytes: a write that does not
    fit stores what fits and reports a short count with an error. *)
Record limited : Type := { room : nat; stored : list byte }.

#[export] Instance LimitedSink : IoWriter limited := {
  io_Write s p :=
    if length p <=? room s
    then ({| room := room s - length p; stored := stored s ++ p |},
          Z.of_nat (length p), None)
    else ({| room := 0; stored := stored s ++ firstn (room s) p |},
          Z.of_nat (room s), Some (ErrIO 28))
}.

(* ================================================================== *)
(** ** crypt_test.go: randKey, randBytes, TestSmall, notEqual *)

Definition smallTimes : nat := 10.
Definition smallSize : nat := 5.

(** [io.ReadFull(rand.Reader, buf)] stores what it read at the front of
    [buf]. *)
Definition read_into (buf data : list byte) : list byte :=
  snd (copy buf data).

Definition read_into_length (buf data : list byte) :
  length (read_into buf data) = length buf.
Proof.
  unfold read_into, copy; cbn [snd].
  rewrite length_app, length_firstn, length_skipn. lia.
Qed.

(** [randKey]: a fresh [[32]byte] filled from the random source; [None]
    when it panics with the error of the source. *)
Definition randKey {R} `{RandReader R} (rnd : R) : option key32 * R :=
  let '(rnd', data, err) := rand_ReadFull rnd 32 in
  match err with
  | Some _ => (None, rnd')
  | None =>
      (Some {| key_bytes := read_into (repeat x00 32) data;
               key_len := read_into_length (repeat x00 32) data |}, rnd')
  end.

(** [randBytes(s)]: [None] when it panics with the error of the source. *)
Definition randBytes {R} `{RandReader R} (s : nat) (rnd : R)
  : option (list byte) * R :=
  let '(rnd', data, err) := rand_ReadFull rnd s in
  match err with
  | Some _ => (None, rnd')
  | None => (Some (read_into (repeat x00 s) data), rnd')
  end.

(** How a test ends. *)
Inductive test_result : Type :=
| Pass
| Fatal            (* t.Fatal / t.Fatalf *)
| TestPanics.

(** The loop of [TestSmall] with [times] iterations left. *)
Fixpoint TestSmall_loop {R} `{AEAD} `{RandReader R} (times : nat) (rnd : R)
  : test_result * R :=
  match times with
  | 0 => (Pass, rnd)
  | Datatypes.S times' =>
      match randKey rnd with
      | (None, r1) => (TestPanics, r1)
      | (Some key, r1) =>
          match randBytes smallSize r1 with
          | (None, r2) => (TestPanics, r2)
          | (Some data, r2) =>
              match Encrypt data (Some key) r2 with
              | (Panics _, r3) => (TestPanics, r3)
              | (Ret (_, Some _), r3) => (Fatal, r3)
              | (Ret (encrypted, None), r3) =>
                  match Decrypt encrypted (Some key) with
                  | Panics _ => (TestPanics, r3)
                  | Ret (_, Some _) => (Fatal, r3)
                  | Ret (decrypted, None) =>
                      if bytes_eqb decrypted data
                      then TestSmall_loop times' r3
                      else (Fatal, r3)
                  end
              end
          end
      end
  end.

Definition TestSmall {R} `{AEAD} `{RandReader R} (rnd : R)
  : test_result * R :=
  TestSmall_loop smallTimes rnd.

(** What [notEqual] returns: nil, or [errNotEqual]. *)
Inductive notEqual_result : Type :=
| ReturnsNil
| ReturnsNotEqual.

(** The two readers, the two 8-byte buffers and the error count of
    [notEqual]. *)
Record notEqual_state (S1 S2 : Type) : Type := {
  ne_r1 : S1;
  ne_r2 : S2;
  ne_buf1 : list byte;
  ne_buf2 : list byte;
  ne_errn : nat
}.

Section NotEqual.
Context {S1 S2 : Type} `{IoReader S1} `{IoReader S2}.

(** The body of the loop: [inl] to go on, [inr] when it returns. *)
Definition notEqual_iter (st : notEqual_state S1 S2)
  : notEqual_state S1 S2 + notEqual_result :=
  let '(r1', data1, err1) := io_Read (ne_r1 st) (length (ne_buf1 st)) in
  let buf1 := read_into (ne_buf1 st) data1 in
  let errn1 := match err1 with
               | Some _ => Datatypes.S (ne_errn st)
               | None => ne_errn st
               end in
  let '(r2', data2, err2) := io_Read (ne_r2 st) (length (ne_buf2 st)) in
  let buf2 := read_into (ne_buf2 st) data2 in
  let errn2 := match err2 with
               | Some _ => Datatypes.S errn1
               | None => errn1
               end in
  if bytes_eqb buf1 buf2
  then inl {| ne_r1 := r1'; ne_r2 := r2'; ne_buf1 := buf1; ne_buf2 := buf2;
              ne_errn := errn2 |}
  else inr ReturnsNotEqual.

(** The loop [for errn < 5], for at most [fuel] tests of its condition:
    [None] when it is still running after them. *)
Fixpoint notEqual_loop (fuel : nat) (st : notEqual_state S1 S2)
  : option notEqual_result :=
  match fuel with
  | 0 => None
  | Datatypes.S fuel' =>
      if ne_errn st <? 5 then
        match notEqual_iter st with
        | inl st' => notEqual_loop fuel' st'
        | inr r => Some r
        end
      else Some ReturnsNil
  end.

Definition notEqual (fuel : nat) (r1 : S1) (r2 : S2)
  : option notEqual_result :=
  notEqual_loop fuel {| ne_r1 := r1; ne_r2 := r2;
                        ne_buf1 := repeat x00 8; ne_buf2 := repeat x00 8;
                        ne_errn := 0 |}.

End NotEqual.

(* ================================================================== *)
(** ** The test-data generator ([main] of the generator program) *)

(** How the generator ends: it returns from [main], or [log.Fatal] ends
    the process with the error of the random source. *)
Inductive main_result : Type :=
| MainReturns
| LogFatal (e : error).

(** The file, the random source, the contents of [buf], and the slices
    handed to [f.Write] so far. *)
Record gen_state (S R : Type) : Type := {
  gen_file : S;
  gen_rand : R;
  gen_buf : list byte;
  gen_writes : list (list byte)
}.

Section Generator.
Context {S R : Type} `{IoWriter S} `{RandReader R}.

(** The loop [for i := 0; i < size; i++] with [count] iterations left. *)
Fixpoint main_loop (count : nat) (st : gen_state S R)
  : main_result * gen_state S R :=
  match count with
  | 0 => (MainReturns, st)
  | Datatypes.S count' =>
      let '(rnd', data, err) :=
        rand_ReadFull (gen_rand st) (length (gen_buf st)) in
      let buf := read_into (gen_buf st) data in
      match err with
      | Some e =>
          (LogFatal e,
           {| gen_file := gen_file st; gen_rand := rnd'; gen_buf := buf;
              gen_writes := gen_writes st |})
      | None =>
          (* f.Write(buf): the count and the error are dropped *)
          let '(file', _, _) := io_Write (gen_file st) buf in
          main_loop count'
            {| gen_file := file'; gen_rand := rnd'; gen_buf := buf;
               gen_writes := gen_writes st ++ [buf] |}
      end
  end.

(** [main] from the allocation of [buf] on, for the parsed size [num] and
    the opened file [f]. *)
Definition main_generate (num : Z) (f : S) (rnd : R)
  : main_result * gen_state S R :=
  let size := wrap64 (num * 1024) in
  main_loop (Z.to_nat size)
    {| gen_file := f; gen_rand := rnd; gen_buf := repeat x00 1024;
       gen_writes := [] |}.

End Generator.

(* ================================================================== *)
(** * Properties *)

(** ** Bytes and bit flips *)

Lemma bits_xor_involutive (k b : bits8) : bits_xor k (bits_xor k b) = b.
Proof.
  destruct k as [k0 [k1 [k2 [k3 [k4 [k5 [k6 k7]]]]]]].
  destruct b as [b0 [b1 [b2 [b3 [b4 [b5 [b6 b7]]]]]]].
  cbn [bits_xor].
  repeat rewrite <- xorb_assoc.
  repeat rewrite xorb_nilpotent.
  repeat rewrite xorb_false_l.
  reflexivity.
Qed.

Lemma byte_xor_involutive (k b : byte) : byte_xor k (byte_xor k b) = b.
Proof.
  unfold byte_xor.
  rewrite Byte.to_bits_of_bits, bits_xor_involutive.
  apply Byte.of_bits_to_bits.
Qed.

Lemma byte_parity_flip (j : nat) (b : byte) :
  j < 8 -> byte_parity (byte_xor b (bit_mask j)) = negb (byte_parity b).
Proof.
  intro Hj.
  unfold byte_parity, byte_xor, bit_mask.
  rewrite !Byte.to_bits_of_bits.
  destruct (Byte.to_bits b) as [b0 [b1 [b2 [b3 [b4 [b5 [b6 b7]]]]]]].
  do 8 (destruct j as [|j];
        [ cbn; destruct b0, b1, b2, b3, b4, b5, b6, b7; reflexivity | ]).
  lia.
Qed.

Lemma flip_bit_length (i : nat) (l : list byte) :
  length (flip_bit i l) = length l.
Proof.
  revert i; induction l as [|b t IH]; intro i; simpl; [reflexivity|].
  destruct (i <? 8); simpl; [reflexivity | now rewrite IH].
Qed.

Lemma flip_bit_app_l (i : nat) (a b : list byte) :
  i < 8 * length a -> flip_bit i (a ++ b) = flip_bit i a ++ b.
Proof.
  revert i; induction a as [|x a IH]; intros i Hi; simpl in *; [lia|].
  destruct (Nat.ltb_spec i 8); [reflexivity|].
  rewrite IH by lia. reflexivity.
Qed.

Lemma flip_bit_app_r (i : nat) (a b : list byte) :
  8 * length a <= i ->
  flip_bit i (a ++ b) = a ++ flip_bit (i - 8 * length a) b.
Proof.
  revert i; induction a as [|x a IH]; intros i Hi; simpl in *.
  - now rewrite Nat.sub_0_r.
  - destruct (Nat.ltb_spec i 8); [lia|].
    rewrite IH by lia. do 3 f_equal. lia.
Qed.

Lemma parity_app (a b : list byte) :
  parity (a ++ b) = xorb (parity a) (parity b).
Proof.
  induction a as [|x a IH]; simpl.
  - now destruct (parity b).
  - rewrite IH. now rewrite xorb_assoc.
Qed.

Lemma parity_flip_bit (i : nat) (l : list byte) :
  i < 8 * length l -> parity (flip_bit i l) = negb (parity l).
Proof.
  revert i; induction l as [|b t IH]; intros i Hi; simpl in *; [lia|].
  destruct (Nat.ltb_spec i 8); simpl.
  - rewrite byte_parity_flip by assumption.
    now destruct (byte_parity b), (parity t).
  - rewrite IH by lia.
    now destruct (byte_parity b), (parity t).
Qed.

Lemma flip_bit_changes (i : nat) (l : list byte) :
  i < 8 * length l -> flip_bit i l <> l.
Proof.
  intros Hi Heq.
  pose proof (parity_flip_bit l Hi) as Hp.
  rewrite Heq in Hp. now destruct (parity l).
Qed.

Lemma bytes_eqb_refl (a : list byte) : bytes_eqb a a = true.
Proof.
  induction a as [|x a IH]; simpl; [reflexivity|].
  rewrite IH, (Byte.byte_dec_lb (eq_refl x)). reflexivity.
Qed.

Lemma bytes_eqb_eq (a b : list byte) : bytes_eqb a b = true -> a = b.
Proof.
  revert b; induction a as [|x a IH]; intros [|y b]; simpl; try discriminate.
  - reflexivity.
  - intro H. apply andb_prop in H as [Hx Hab].
    apply Byte.byte_dec_bl in Hx. f_equal; auto.
Qed.

(** ** Slices *)

Lemma firstn_exact {A} (a b : list A) n :
  length a = n -> firstn n (a ++ b) = a.
Proof.
  intros <-. rewrite firstn_app, Nat.sub_diag, firstn_all. simpl.
  apply app_nil_r.
Qed.

Lemma skipn_exact {A} (a b : list A) n :
  length a = n -> skipn n (a ++ b) = b.
Proof.
  intros <-. rewrite skipn_app, Nat.sub_diag, skipn_all. reflexivity.
Qed.

(** ** The stand-in AEAD meets the contract *)

Lemma parity_tag_flip_nonce key nonce nonce' ct ad :
  parity nonce' = negb (parity nonce) ->
  bytes_eqb (parity_tag key nonce ct ad) (parity_tag key nonce' ct ad) = false.
Proof.
  intro Hp. unfold parity_tag. rewrite !parity_app, Hp.
  now destruct (parity nonce), (parity ct).
Qed.

Lemma parity_tag_flip_ct key nonce ct ct' ad :
  parity ct' = negb (parity ct) ->
  bytes_eqb (parity_tag key nonce ct ad) (parity_tag key nonce ct' ad) = false.
Proof.
  intro Hp. unfold parity_tag. rewrite !parity_app, Hp.
  now destruct (parity nonce), (parity ct).
Qed.

Lemma parity_open_split key nonce ct tag ad :
  length tag = gcmTagSize ->
  parity_open key nonce (ct ++ tag) ad =
  if bytes_eqb tag (parity_tag key nonce ct ad)
  then Some (map (byte_xor (hd x00 key)) ct) else None.
Proof.
  intro Ht. unfold parity_open.
  rewrite length_app, Ht.
  destruct (Nat.ltb_spec (length ct + gcmTagSize) gcmTagSize); [lia|].
  replace (length ct + gcmTagSize - gcmTagSize) with (length ct) by lia.
  rewrite firstn_exact, skipn_exact by reflexivity.
  reflexivity.
Qed.

#[export] Instance ParityAEAD_laws : AEADLaws ParityAEAD.
Proof.
  split.
  - intros; apply length_map.
  - reflexivity.
  - intros key nonce pt ad _.
    unfold aead_seal; cbn [aead_ct aead_tag aead_open ParityAEAD].
    rewrite parity_open_split by reflexivity.
    rewrite bytes_eqb_refl. unfold parity_ct.
    rewrite map_map. f_equal.
    rewrite <- (map_id pt) at 2. apply map_ext, byte_xor_involutive.
  - intros key nonce pt ad i Hn Hi.
    unfold aead_seal in *; cbn [aead_ct aead_tag aead_open ParityAEAD] in *.
    set (ct := parity_ct key nonce pt) in *.
    set (tag := parity_tag key nonce ct ad) in *.
    assert (Htag : length tag = gcmTagSize) by reflexivity.
    cbv zeta.
    rewrite !length_app in Hi.
    destruct (Nat.lt_ge_cases i (8 * length nonce)) as [Hlt|Hge].
    + rewrite flip_bit_app_l by assumption.
      rewrite firstn_exact, skipn_exact
        by (rewrite flip_bit_length; assumption).
      rewrite parity_open_split by assumption.
      subst tag.
      rewrite parity_tag_flip_nonce; [reflexivity|].
      now apply parity_flip_bit.
    + rewrite flip_bit_app_r by assumption.
      rewrite firstn_exact, skipn_exact by assumption.
      set (j := i - 8 * length nonce).
      destruct (Nat.lt_ge_cases j (8 * length ct)) as [Hlt|Hge'].
      * rewrite flip_bit_app_l by assumption.
        rewrite parity_open_split by assumption.
        subst tag.
        rewrite parity_tag_flip_ct; [reflexivity|].
        now apply parity_flip_bit.
      * rewrite flip_bit_app_r by assumption.
        rewrite parity_open_split by (rewrite flip_bit_length; assumption).
        destruct (bytes_eqb _ _) eqn:E; [|reflexivity].
        apply bytes_eqb_eq in E.
        exfalso. revert E. apply flip_bit_changes. subst j. fold tag. lia.
Qed.

(* ================================================================== *)
(** ** The AEAD factory and the nonce generator *)

Lemma newGCM_key (K : key32) :
  newGCM (Some K) = Ret (Some {| gcm_key := key_bytes K |}, None).
Proof.
  unfold newGCM, key_slice, bind, aes_NewCipher.
  rewrite (key_len K). reflexivity.
Qed.

Lemma newNonce_delivers {R} {RR : RandReader R} size (rnd rnd' : R) nonce :
  rand_ReadFull rnd size = (rnd', nonce, None) ->
  length nonce = size ->
  newNonce size rnd = (Ret nonce, rnd').
Proof.
  intros Hr Hl. unfold newNonce. rewrite Hr, Hl, Nat.eqb_refl. reflexivity.
Qed.

Lemma newNonce_returns {R} {RR : RandReader R} size (rnd rnd' : R) nonce :
  newNonce size rnd = (Ret nonce, rnd') -> length nonce = size.
Proof.
  unfold newNonce.
  destruct (rand_ReadFull rnd size) as [[r n] [e|]]; [discriminate|].
  destruct (Nat.eqb_spec (length n) size); [|discriminate].
  now intros [= <- _].
Qed.

(** ** Whole-buffer codec *)

Section WholeBuffer.
Context {A : AEAD} {R : Type} {RR : RandReader R}.

Lemma Encrypt_delivers (P : list byte) (K : key32) (rnd rnd' : R) nonce :
  rand_ReadFull rnd gcmStandardNonceSize = (rnd', nonce, None) ->
  length nonce = gcmStandardNonceSize ->
  Encrypt P (Some K) rnd =
  (Ret (nonce ++ aead_seal (key_bytes K) nonce P [], None), rnd').
Proof.
  intros Hr Hl. unfold Encrypt.
  rewrite newGCM_key. cbn [NonceSize].
  rewrite (newNonce_delivers _ Hr Hl).
  unfold Seal. rewrite Hl, Nat.eqb_refl. reflexivity.
Qed.

(** Whatever [Encrypt] returns for a key is a 12-byte nonce followed by
    what the primitive sealed under it, with the nil error. *)
Lemma Encrypt_returns (P : list byte) (K : key32) (rnd rnd' : R) c e :
  Encrypt P (Some K) rnd = (Ret (c, e), rnd') ->
  e = None /\
  exists nonce, length nonce = gcmStandardNonceSize /\
                c = nonce ++ aead_seal (key_bytes K) nonce P [].
Proof.
  unfold Encrypt. rewrite newGCM_key. cbn [NonceSize].
  destruct (newNonce gcmStandardNonceSize rnd) as [[nonce|why] r] eqn:E;
    [|discriminate].
  apply newNonce_returns in E.
  unfold Seal. rewrite E, Nat.eqb_refl. cbn [bind].
  intros [= <- <- _]. split; [reflexivity|]. now exists nonce.
Qed.

Lemma Decrypt_key (ciphertext : list byte) (K : key32) :
  Decrypt ciphertext (Some K) =
  if length ciphertext <? gcmStandardNonceSize
  then Ret ([], Some ErrCiphertextTooSmall)
  else Ret match aead_open (key_bytes K)
                   (firstn gcmStandardNonceSize ciphertext)
                   (skipn gcmStandardNonceSize ciphertext) [] with
           | Some pt => (pt, None)
           | None => ([], Some ErrOpen)
           end.
Proof.
  unfold Decrypt. rewrite newGCM_key. cbn [bind fst snd].
  unfold Decrypt_with. cbn [NonceSize bind].
  destruct (Nat.ltb_spec (length ciphertext) gcmStandardNonceSize) as [|Hge];
    [reflexivity|].
  unfold Open.
  rewrite length_firstn, Nat.min_l, Nat.eqb_refl by assumption.
  cbn [gcm_key].
  now destruct aead_open.
Qed.

Lemma Decrypt_frame (K : key32) (nonce sealed : list byte) :
  length nonce = gcmStandardNonceSize ->
  Decrypt (nonce ++ sealed) (Some K) =
  Ret match aead_open (key_bytes K) nonce sealed [] with
      | Some pt => (pt, None)
      | None => ([], Some ErrOpen)
      end.
Proof.
  intro Hl. rewrite Decrypt_key.
  rewrite length_app, Hl.
  destruct (Nat.ltb_spec (gcmStandardNonceSize + length sealed)
              gcmStandardNonceSize); [lia|].
  now rewrite firstn_exact, skipn_exact.
Qed.

(** The factory's error is never read: on a nil AEAD the body of [Decrypt]
    panics where [Encrypt] returns the error. *)
Lemma Decrypt_with_factory_error (ciphertext : list byte) (e : error) :
  Decrypt_with ciphertext None (Some e) = Panics NilDereference.
Proof. reflexivity. Qed.

End WholeBuffer.

(* ================================================================== *)
(** ** Writer *)

Lemma copy_length (dst src : list byte) :
  length (snd (copy dst src)) = length dst.
Proof.
  unfold copy; cbn [snd].
  rewrite length_app, length_firstn, length_skipn. lia.
Qed.

Section WriterFacts.
Context {S R : Type} {A : AEAD} {W : IoWriter S} {RR : RandReader R}.

Implicit Types (st : WriteState S R) (gcm : option GCM) (p : list byte).

(** An iteration keeps the size of the buffer; it either leaves the sink
    alone or hands it the whole buffer, once, after a copy that filled it. *)
Lemma Write_iter_effect gcm p st :
  let st' := iter_state (Write_iter gcm p st) in
  length (ws_buf st') = length (ws_buf st) /\
  ((ws_writes st' = ws_writes st /\ ws_sink st' = ws_sink st) \/
   (length (ws_buf st) <= length p /\
    ws_buf st' = firstn (length (ws_buf st)) p /\
    ws_writes st' = ws_writes st ++ [ws_buf st'] /\
    ws_sink st' = fst (fst (io_Write (ws_sink st) (ws_buf st'))))).
Proof.
  pose proof (copy_length (ws_buf st) p) as Hlen.
  unfold Write_iter.
  destruct (copy (ws_buf st) p) as [n buf'] eqn:Ecopy.
  cbn [snd] in Hlen.
  destruct (Nat.eqb_spec n (length (ws_buf st))) as [Hn|Hn].
  2: { cbn. auto. }
  destruct gcm as [g|]; cbn [NonceSize].
  2: { cbn. auto. }
  destruct (newNonce gcmStandardNonceSize (ws_rand st)) as [[nonce|why] rnd'].
  2: { cbn. auto. }
  destruct (Seal (Some g) nonce nonce p []) as [ciphertext|why].
  2: { cbn. auto. }
  destruct (io_Write (ws_sink st) buf') as [[sink' nw] err] eqn:Ew.
  assert (Hfull : length (ws_buf st) <= length p /\
                  buf' = firstn (length (ws_buf st)) p).
  { unfold copy in Ecopy. injection Ecopy as Hmin Hbuf.
    rewrite Hn in Hmin.
    assert (length (ws_buf st) <= length p) by lia.
    split; [assumption|].
    rewrite <- Hbuf, Nat.min_l, skipn_all, app_nil_r by assumption.
    reflexivity. }
  destruct Hfull as [Hle Hbuf].
  destruct err as [e|]; cbn; (split; [assumption|]); right;
    rewrite Ew; cbn; auto.
Qed.

Lemma Write_iter_short gcm p st :
  length p < length (ws_buf st) ->
  Write_iter gcm p st =
  Continue {| ws_sink := ws_sink st; ws_rand := ws_rand st;
              ws_buf := p ++ skipn (length p) (ws_buf st);
              ws_total := wrap64 (ws_total st + Z.of_nat (length p));
              ws_writes := ws_writes st; ws_nonces := ws_nonces st |}.
Proof.
  intro Hlt. unfold Write_iter, copy.
  rewrite Nat.min_r by lia.
  destruct (Nat.eqb_spec (length p) (length (ws_buf st))); [lia|].
  rewrite firstn_all. reflexivity.
Qed.

(** The empty input: [Write] returns at once, having written nothing. *)
Lemma Write_empty_input gcm st fuel :
  Write_loop (Datatypes.S fuel) gcm [] st = Some (Ret (ws_total st, None), st).
Proof. reflexivity. Qed.

(** A non-empty input shorter than the buffer: the loop runs forever and
    touches neither the sink nor the random source. *)
Lemma Write_short_never_returns gcm p st fuel :
  0 < length p < length (ws_buf st) ->
  Write_loop fuel gcm p st = None.
Proof.
  revert st; induction fuel as [|fuel IH]; intros st Hp; [reflexivity|].
  cbn [Write_loop].
  destruct (Nat.eqb_spec (length p) 0); [lia|].
  rewrite Write_iter_short by lia.
  apply IH. cbn [ws_buf].
  rewrite length_app, length_skipn. lia.
Qed.

Lemma Write_short_progress gcm p st k :
  length p < length (ws_buf st) ->
  let st' := Write_progress k gcm p st in
  ws_sink st' = ws_sink st /\ ws_writes st' = ws_writes st /\
  ws_rand st' = ws_rand st /\ ws_nonces st' = ws_nonces st /\
  length (ws_buf st') = length (ws_buf st).
Proof.
  revert st; induction k as [|k IH]; intros st Hp; cbn [Write_progress].
  - auto.
  - destruct (length p =? 0); [auto|].
    rewrite Write_iter_short by lia.
    match goal with |- context [Write_progress k gcm p ?s] =>
      specialize (IH s) end.
    cbn [ws_buf ws_sink ws_writes ws_rand ws_nonces] in IH.
    rewrite length_app, length_skipn in IH.
    replace (length p + (length (ws_buf st) - length p))
      with (length (ws_buf st)) in IH by lia.
    apply IH. assumption.
Qed.

(** At every point of a call, what the sink has been handed since the call
    began is a sequence of whole buffers. *)
Lemma Write_progress_writes gcm p st k :
  let st' := Write_progress k gcm p st in
  length (ws_buf st') = length (ws_buf st) /\
  exists l, ws_writes st' = ws_writes st ++ l /\
            Forall (fun b => length b = length (ws_buf st)) l.
Proof.
  revert st; induction k as [|k IH]; intro st; cbn [Write_progress].
  - split; [reflexivity|]. exists []. now rewrite app_nil_r.
  - destruct (length p =? 0).
    { split; [reflexivity|]. exists []. now rewrite app_nil_r. }
    pose proof (Write_iter_effect gcm p st) as [Hlen Hw].
    assert (Hone : exists l1,
               ws_writes (iter_state (Write_iter gcm p st)) =
               ws_writes st ++ l1 /\
               Forall (fun b => length b = length (ws_buf st)) l1).
    { destruct Hw as [[Hw _]|(_ & _ & Hw & _)].
      - exists []. now rewrite app_nil_r.
      - eexists. split; [exact Hw|]. constructor; [exact Hlen|constructor]. }
    destruct (Write_iter gcm p st) as [st1|t e st1|why st1];
      cbn [iter_state] in *; try (split; assumption).
    destruct (IH st1) as [Hlen' (l2 & Hw2 & Hall2)].
    destruct Hone as (l1 & Hw1 & Hall1).
    split; [congruence|].
    exists (l1 ++ l2). split.
    + rewrite Hw2, Hw1. now rewrite app_assoc.
    + apply Forall_app. split; [assumption|].
      rewrite Hlen in Hall2. exact Hall2.
Qed.

Lemma Write_loop_progress gcm p st fuel r st' :
  Write_loop fuel gcm p st = Some (r, st') ->
  Write_progress fuel gcm p st = st'.
Proof.
  revert st; induction fuel as [|fuel IH]; intro st;
    cbn [Write_loop Write_progress]; [discriminate|].
  destruct (length p =? 0); [now intros [= _ <-]|].
  destruct (Write_iter gcm p st) as [st1|t e st1|why st1];
    [apply IH | now intros [= _ <-] | now intros [= _ <-]].
Qed.

(** [Write] returns the nil error only for the empty input. *)
Lemma Write_iter_returns_error gcm p st total err st' :
  Write_iter gcm p st = Returns total err st' -> err <> None.
Proof.
  unfold Write_iter.
  destruct (copy (ws_buf st) p) as [n buf'].
  destruct (n =? length (ws_buf st)); [|discriminate].
  destruct (NonceSize gcm); [|discriminate].
  destruct (newNonce a (ws_rand st)) as [[nonce|why] rnd']; [|discriminate].
  destruct (Seal gcm nonce nonce p []); [|discriminate].
  destruct (io_Write (ws_sink st) buf') as [[sink' nw] [e|]];
    [|discriminate].
  intros [= _ <- _]. discriminate.
Qed.

Lemma Write_returns_nil_only_empty gcm p st fuel total st' :
  Write_loop fuel gcm p st = Some (Ret (total, None), st') -> p = [].
Proof.
  revert st; induction fuel as [|fuel IH]; intro st; cbn [Write_loop];
    [discriminate|].
  destruct p as [|x p']; [reflexivity|]. cbn [length Nat.eqb].
  destruct (Write_iter gcm (x :: p') st) as [st1|t e st1|why st1] eqn:E.
  - apply IH.
  - intros [= -> -> _]. now apply Write_iter_returns_error in E.
  - discriminate.
Qed.

End WriterFacts.

Section WriterFlush.
Context {S R : Type} {A : AEAD} {W : IoWriter S} {RR : RandReader R}.

(** An iteration whose copy fills the buffer: one nonce is drawn, the input
    [p] is sealed, and the sink is handed the buffer, that is the first
    [len(w.buf)] bytes of the plaintext [p]; the sealed bytes are only
    measured. *)
Lemma Write_iter_flush g (p : list byte) (st : WriteState S R)
  nonce rnd' sink' nw err :
  length (ws_buf st) <= length p ->
  newNonce gcmStandardNonceSize (ws_rand st) = (Ret nonce, rnd') ->
  io_Write (ws_sink st) (firstn (length (ws_buf st)) p) = (sink', nw, err) ->
  let chunk := firstn (length (ws_buf st)) p in
  let total1 := wrap64 (ws_total st + Z.of_nat (length (ws_buf st))) in
  let st' total :=
    {| ws_sink := sink'; ws_rand := rnd'; ws_buf := chunk;
       ws_total := total; ws_writes := ws_writes st ++ [chunk];
       ws_nonces := ws_nonces st ++ [nonce] |} in
  Write_iter (Some g) p st =
  match err with
  | Some e => Returns (wrap64 (total1 + nw)) (Some e) (st' total1)
  | None => Continue (st' (wrap64 (total1 + nw)))
  end.
Proof.
  intros Hle Hnonce Hw. cbv zeta.
  unfold Write_iter, copy.
  rewrite Nat.min_l by assumption.
  rewrite Nat.eqb_refl. cbn [NonceSize].
  rewrite Hnonce.
  unfold Seal. rewrite (newNonce_returns _ _ Hnonce), Nat.eqb_refl.
  rewrite skipn_all, app_nil_r, Hw.
  destruct err; reflexivity.
Qed.

End WriterFlush.

(** With a sink that takes everything and a random source that never fails,
    an input at least as long as the buffer makes the loop hand the same
    first chunk of plaintext to the sink again and again. *)
Lemma Write_repeats_first_chunk g (p : list byte)
  (st : WriteState (list byte) nat) (k : nat) :
  0 < length p -> length (ws_buf st) <= length p ->
  Write_loop k (Some g) p st = None /\
  ws_sink (Write_progress k (Some g) p st) =
  ws_sink st ++ concat (repeat (firstn (length (ws_buf st)) p) k).
Proof.
  revert st; induction k as [|k IH]; intros st Hp Hle;
    cbn [Write_loop Write_progress repeat concat].
  - now rewrite app_nil_r.
  - destruct (Nat.eqb_spec (length p) 0); [lia|].
    rewrite (@Write_iter_flush _ _ _ BufferSink CounterRand g p st
               _ _ _ _ None Hle eq_refl eq_refl).
    match goal with |- context [Write_progress k _ p ?s] =>
      set (st1 := s) end.
    destruct (IH st1 Hp) as [IH1 IH2].
    { subst st1; cbn [ws_buf]. rewrite length_firstn. lia. }
    split; [exact IH1|].
    rewrite IH2. subst st1; cbn [ws_buf ws_sink].
    rewrite length_firstn, Nat.min_l by assumption.
    now rewrite <- app_assoc.
Qed.

(* ================================================================== *)
(** ** Reader *)

Lemma NewReader_gcm key bufSize r :
  NewReader key bufSize = Ret (Some r, None) ->
  exists K, key = Some K /\ r_gcm r = Some {| gcm_key := key_bytes K |}.
Proof.
  destruct key as [K|]; [|discriminate].
  unfold NewReader. rewrite newGCM_key. cbn [bind fst snd].
  destruct (make _) as [buf|why]; cbn [bind]; [|discriminate].
  intros [= <-]. now exists K.
Qed.

Lemma NewWriter_gcm key bufSize w :
  NewWriter key bufSize = Ret (Some w, None) ->
  (exists K, key = Some K /\ w_gcm w = Some {| gcm_key := key_bytes K |}) /\
  0 < length (w_buf w).
Proof.
  destruct key as [K|]; [|discriminate].
  unfold NewWriter. rewrite newGCM_key. cbn [bind fst snd].
  unfold make.
  destruct (Z.eqb_spec bufSize 0) as [->|Hnz]; cbn.
  - intros [= <-]. cbn. split; [now exists K | lia].
  - destruct (Z.ltb_spec bufSize 0); cbn [bind]; [discriminate|].
    intros [= <-]. cbn [w_gcm w_buf]. split; [now exists K|].
    rewrite repeat_length. lia.
Qed.

Section ReaderFacts.
Context {S : Type} {A : AEAD} {IR : IoReader S}.

(** [Read] with a non-nil AEAD and a destination of at least the nonce
    size. *)
Lemma Read_gcm g buf (p : list byte) (st : ReadState S) :
  gcmStandardNonceSize <= length p ->
  Read {| r_gcm := Some g; r_buf := buf |} p st =
  let req := length p + gcmTagSize in
  let '(src', data, err) := io_Read (rs_src st) req in
  let st' := {| rs_src := src'; rs_reads := rs_reads st ++ [req] |} in
  match err with
  | Some e => (Ret (0, Some e), p, st')
  | None =>
      if req <? length data then (Panics SliceBounds, p, st')
      else if length data <? gcmStandardNonceSize
           then (Panics SliceBounds, p, st')
           else match aead_open (gcm_key g)
                        (firstn gcmStandardNonceSize data)
                        (skipn gcmStandardNonceSize data) [] with
                | Some b => (Ret (fst (copy p b), None), snd (copy p b), st')
                | None => (Ret (0, Some ErrOpen), p, st')
                end
  end.
Proof.
  intro Hp. unfold Read. cbn [r_gcm NonceSize Overhead].
  destruct (Nat.ltb_spec (length p) gcmStandardNonceSize); [lia|].
  cbv zeta.
  destruct (io_Read (rs_src st) (length p + gcmTagSize))
    as [[src' data] [e|]]; [reflexivity|].
  destruct (length p + gcmTagSize <? length data); [reflexivity|].
  destruct (Nat.ltb_spec (length data) gcmStandardNonceSize);
    [reflexivity|].
  unfold Open.
  rewrite length_firstn, Nat.min_l, Nat.eqb_refl by assumption.
  destruct aead_open; reflexivity.
Qed.

(** Fewer bytes than a nonce, read without error: [ciphertext[12:]] is out
    of range. *)
Lemma Read_short_tail_panics g buf (p : list byte) (st : ReadState S)
  src' data :
  gcmStandardNonceSize <= length p ->
  io_Read (rs_src st) (length p + gcmTagSize) = (src', data, None) ->
  length data < gcmStandardNonceSize ->
  fst (fst (Read {| r_gcm := Some g; r_buf := buf |} p st))
  = Panics SliceBounds.
Proof.
  intros Hp Hread Hshort. rewrite Read_gcm by assumption.
  cbv zeta. rewrite Hread.
  destruct (_ <? length data); [reflexivity|].
  destruct (Nat.ltb_spec (length data) gcmStandardNonceSize);
    [reflexivity | lia].
Qed.

Lemma Read_ignores_buf (r r' : Reader) (p : list byte) (st : ReadState S) :
  r_gcm r = r_gcm r' -> Read r p st = Read r' p st.
Proof. intro Hg. unfold Read. now rewrite Hg. Qed.

Lemma Read_one_request g buf (p : list byte) (st : ReadState S) :
  gcmStandardNonceSize <= length p ->
  let st' := snd (Read {| r_gcm := Some g; r_buf := buf |} p st) in
  rs_reads st' = rs_reads st ++ [length p + gcmTagSize] /\
  rs_src st' = fst (fst (io_Read (rs_src st) (length p + gcmTagSize))).
Proof.
  intro Hp. rewrite Read_gcm by assumption. cbv zeta.
  destruct (io_Read (rs_src st) (length p + gcmTagSize))
    as [[src' data] [e|]]; cbn [fst snd]; [auto|].
  destruct (_ <? length data); [cbn; auto|].
  destruct (length data <? _); [cbn; auto|].
  destruct aead_open; cbn; auto.
Qed.

End ReaderFacts.

(* ================================================================== *)
(** ** The whole-buffer codec: round trip, layout, tampering, errors *)

(** C1. Whole-buffer round trip: for every plaintext [P] and every 32-byte
    key [K], when the random source delivers the nonce, [Encrypt] returns a
    ciphertext with the nil error, and [Decrypt] of that ciphertext under
    [K] returns exactly [P] with the nil error. *)
Theorem Decrypt_Encrypt_roundtrip {A : AEAD} {L : AEADLaws A}
  {R : Type} {RR : RandReader R}
  (P : list byte) (K : key32) (rnd rnd' : R) (nonce : list byte) :
  rand_ReadFull rnd gcmStandardNonceSize = (rnd', nonce, None) ->
  length nonce = gcmStandardNonceSize ->
  exists c,
    Encrypt P (Some K) rnd = (Ret (c, None), rnd') /\
    Decrypt c (Some K) = Ret (P, None).
Proof.
  intros Hr Hl.
  exists (nonce ++ aead_seal (key_bytes K) nonce P []).
  split; [now apply Encrypt_delivers|].
  rewrite Decrypt_frame by assumption.
  now rewrite open_seal.
Qed.

Lemma Decrypt_Encrypt_roundtrip_witness :
  rand_ReadFull tape24 gcmStandardNonceSize
  = (skipn 12 tape24, firstn 12 tape24, None) /\
  length (firstn 12 tape24) = gcmStandardNonceSize /\
  exists c,
    Encrypt chunk16 (Some demo_key) tape24 = (Ret (c, None), skipn 12 tape24) /\
    Decrypt c (Some demo_key) = Ret (chunk16, None).
Proof.
  split; [reflexivity|]. split; [reflexivity|].
  apply (@Decrypt_Encrypt_roundtrip ParityAEAD ParityAEAD_laws _ TapeRand
           chunk16 demo_key tape24 (skipn 12 tape24) (firstn 12 tape24));
    reflexivity.
Defined.

(** C7. Size and layout of [Encrypt]'s output: for a plaintext of [N] bytes
    the result is nonce || ciphertext || tag, with the 12-byte nonce first, [N]
    bytes of ciphertext, and the 16-byte tag last: [N + 28] bytes. *)
Theorem Encrypt_layout {A : AEAD} {L : AEADLaws A}
  {R : Type} {RR : RandReader R}
  (P : list byte) (K : key32) (rnd rnd' : R) (nonce : list byte) :
  rand_ReadFull rnd gcmStandardNonceSize = (rnd', nonce, None) ->
  length nonce = gcmStandardNonceSize ->
  let ct := aead_ct (key_bytes K) nonce P in
  let tag := aead_tag (key_bytes K) nonce ct [] in
  let out := nonce ++ ct ++ tag in
  Encrypt P (Some K) rnd = (Ret (out, None), rnd') /\
  firstn 12 out = nonce /\
  firstn (length P) (skipn 12 out) = ct /\
  skipn (12 + length P) out = tag /\
  length tag = 16 /\
  length out = length P + 28.
Proof.
  intros Hr Hl ct tag out.
  assert (Hct : length ct = length P) by apply ct_length.
  assert (Htag : length tag = 16) by apply tag_length.
  split; [now apply Encrypt_delivers|].
  subst out. repeat split.
  - now apply firstn_exact.
  - rewrite skipn_exact by assumption. now apply firstn_exact.
  - rewrite app_assoc. apply skipn_exact.
    rewrite length_app, Hl, Hct. reflexivity.
  - assumption.
  - rewrite !length_app, Hl, Hct, Htag.
    unfold gcmStandardNonceSize. lia.
Qed.

Lemma Encrypt_layout_witness :
  rand_ReadFull tape24 gcmStandardNonceSize
  = (skipn 12 tape24, firstn 12 tape24, None) /\
  length (firstn 12 tape24) = gcmStandardNonceSize /\
  let nonce := firstn 12 tape24 in
  let out := nonce ++ aead_seal (key_bytes demo_key) nonce chunk16 [] in
  Encrypt chunk16 (Some demo_key) tape24 = (Ret (out, None), skipn 12 tape24) /\
  length out = 16 + 28.
Proof.
  split; [reflexivity|]. split; [reflexivity|].
  pose proof (@Encrypt_layout ParityAEAD ParityAEAD_laws _ TapeRand
                chunk16 demo_key tape24 (skipn 12 tape24) (firstn 12 tape24)
                eq_refl eq_refl) as (HE & _ & _ & _ & _ & Hlen).
  split; [exact HE | exact Hlen].
Defined.

(** C8. Tamper detection: flipping any single bit of a ciphertext returned
    by [Encrypt] makes [Decrypt] return the authentication error and no
    plaintext; flipping any single bit of a stream frame nonce || ciphertext ||
    tag makes [Read] return the authentication error, zero bytes, and leave
    the destination untouched. *)
Theorem tamper_detection {A : AEAD} {L : AEADLaws A} (K : key32) :
  (forall (R : Type) (RR : RandReader R) (P : list byte) (rnd rnd' : R)
          (c : list byte) (e : option error) (i : nat),
      Encrypt P (Some K) rnd = (Ret (c, e), rnd') ->
      i < 8 * length c ->
      Decrypt (flip_bit i c) (Some K) = Ret ([], Some ErrOpen))
  /\
  (forall (S : Type) (IR : IoReader S) (bufSize : Z) (r : Reader)
          (nonce chunk p : list byte) (i : nat) (src src' : S)
          (log : list nat),
      NewReader (Some K) bufSize = Ret (Some r, None) ->
      length nonce = gcmStandardNonceSize ->
      let frame := nonce ++ aead_seal (key_bytes K) nonce chunk [] in
      i < 8 * length frame ->
      length frame <= length p + gcmTagSize ->
      io_Read src (length p + gcmTagSize) = (src', flip_bit i frame, None) ->
      Read r p {| rs_src := src; rs_reads := log |} =
      (Ret (0, Some ErrOpen), p,
       {| rs_src := src'; rs_reads := log ++ [length p + gcmTagSize] |})).
Proof.
  split.
  - intros R RR P rnd rnd' c e i HE Hi.
    apply Encrypt_returns in HE as (_ & nonce & Hl & ->).
    rewrite Decrypt_key, flip_bit_length.
    rewrite length_app, Hl.
    destruct (Nat.ltb_spec
                (gcmStandardNonceSize
                 + length (aead_seal (key_bytes K) nonce P []))
                gcmStandardNonceSize); [lia|].
    now rewrite (open_flipped (key_bytes K) nonce P [] Hl Hi).
  - intros S IR bufSize r nonce chunk p i src src' log
           Hnew Hl frame Hi Hroom Hread.
    apply NewReader_gcm in Hnew as (K' & [= <-] & Hg).
    destruct r as [g buf]; cbn [r_gcm] in Hg; subst g.
    assert (Hframe : gcmStandardNonceSize + gcmTagSize <= length frame).
    { subst frame. unfold aead_seal.
      rewrite !length_app, Hl, tag_length. lia. }
    rewrite Read_gcm by lia.
    cbn [rs_src rs_reads]. rewrite Hread. cbv zeta.
    rewrite flip_bit_length.
    destruct (Nat.ltb_spec (length p + gcmTagSize) (length frame)); [lia|].
    destruct (Nat.ltb_spec (length frame) gcmStandardNonceSize); [lia|].
    cbn [gcm_key]. subst frame.
    now rewrite (open_flipped (key_bytes K) nonce chunk [] Hl Hi).
Qed.

Lemma tamper_detection_witness :
  Decrypt (flip_bit 100 frame_a) (Some demo_key) = Ret ([], Some ErrOpen) /\
  Read reader16 (repeat x00 13)
       {| rs_src := flip_bit 100 frame_a; rs_reads := [] |} =
  (Ret (0, Some ErrOpen), repeat x00 13,
   {| rs_src := []; rs_reads := [29] |}).
Proof.
  destruct (@tamper_detection ParityAEAD ParityAEAD_laws demo_key)
    as [Hwhole Hstream].
  split.
  - apply (Hwhole (list byte) TapeRand [x61] tape24 (skipn 12 tape24)
             frame_a None 100); [reflexivity | vm_compute; lia].
  - apply (Hstream (list byte) SliceSource 16%Z reader16
             (firstn 12 tape24) [x61] (repeat x00 13) 100
             (flip_bit 100 frame_a) [] []);
      try reflexivity; vm_compute; lia.
Defined.

(** C9, the claim as stated fails: with a nil key [Decrypt] panics (the nil
    pointer is dereferenced by [key[:]] in [newGCM]) instead of returning an
    error. *)
Lemma Decrypt_nil_key_panics :
  @Decrypt ParityAEAD [] None = Panics NilDereference.
Proof. reflexivity. Qed.

(** C9, amended. For every ciphertext and every non-nil 32-byte key the
    AEAD factory returns an AEAD and no error, and [Decrypt] returns without
    panicking: it compares the length of the ciphertext with the nonce size
    before slicing, returns the error "ciphertext can't be smaller then
    gcm.NonceSize" and no plaintext when it is shorter, and otherwise the
    plaintext opened from ciphertext[12:] under the nonce ciphertext[:12], or
    the authentication error and no plaintext. *)
Theorem Decrypt_checks_length {A : AEAD} (ciphertext : list byte) (K : key32) :
  newGCM (Some K) = Ret (Some {| gcm_key := key_bytes K |}, None) /\
  Decrypt ciphertext (Some K) =
  if length ciphertext <? gcmStandardNonceSize
  then Ret ([], Some ErrCiphertextTooSmall)
  else Ret match aead_open (key_bytes K)
                   (firstn gcmStandardNonceSize ciphertext)
                   (skipn gcmStandardNonceSize ciphertext) [] with
           | Some pt => (pt, None)
           | None => ([], Some ErrOpen)
           end.
Proof. split; [apply newGCM_key | apply Decrypt_key]. Qed.

(* ================================================================== *)
(** ** The stream reader *)

(** C10. For every [Reader] made by [NewReader] and every destination [p]
    of at least the nonce size, [Read] calls the source's [Read] exactly
    once, with a buffer of [len(p) + 16] bytes, and the [bufSize] given to
    [NewReader] has no effect on the call: a [Reader] made with any other
    [bufSize] behaves identically. *)
Theorem Read_single_request {A : AEAD} {S : Type} {IR : IoReader S}
  (key : key_ptr) (bufSize : Z) (r : Reader) (p : list byte)
  (st : ReadState S) :
  NewReader key bufSize = Ret (Some r, None) ->
  gcmStandardNonceSize <= length p ->
  rs_reads (snd (Read r p st)) = rs_reads st ++ [length p + 16] /\
  rs_src (snd (Read r p st))
  = fst (fst (io_Read (rs_src st) (length p + 16))) /\
  forall bufSize' r',
    NewReader key bufSize' = Ret (Some r', None) ->
    Read r' p st = Read r p st.
Proof.
  intros Hnew Hp.
  apply NewReader_gcm in Hnew as (K & -> & Hg).
  split; [|split].
  - destruct r as [g buf]; cbn [r_gcm] in Hg; subst g.
    now apply Read_one_request.
  - destruct r as [g buf]; cbn [r_gcm] in Hg; subst g.
    now apply Read_one_request.
  - intros bufSize' r' Hnew'.
    apply NewReader_gcm in Hnew' as (K' & [= <-] & Hg').
    apply Read_ignores_buf. congruence.
Qed.

Lemma Read_single_request_witness :
  NewReader (Some demo_key) 16 = Ret (Some reader16, None) /\
  gcmStandardNonceSize <= length (repeat x00 13) /\
  rs_reads (snd (Read reader16 (repeat x00 13)
                      {| rs_src := frame_a; rs_reads := [] |})) = [29].
Proof.
  split; [reflexivity|]. split; [vm_compute; lia|].
  apply (@Read_single_request ParityAEAD (list byte) SliceSource
           (Some demo_key) 16%Z reader16 (repeat x00 13)
           {| rs_src := frame_a; rs_reads := [] |});
    [reflexivity | vm_compute; lia].
Defined.

(** C6, on the code. [Read] decodes a frame that the source delivers whole
    in one read.  The same valid frame delivered in two packets makes [Read]
    fail with the authentication error after a single read of the source;
    a source holding five bytes makes [Read] panic on [ciphertext[12:]]; a
    frame without its final byte is reported as an authentication error. *)
Theorem Read_does_not_gather_frame :
  Read reader16 (repeat x00 13) {| rs_src := frame_a; rs_reads := [] |} =
  (Ret (1, None), x61 :: repeat x00 12,
   {| rs_src := []; rs_reads := [29] |})
  /\
  Read reader16 (repeat x00 13)
       {| rs_src := {| pending := [firstn 20 frame_a; skipn 20 frame_a] |};
          rs_reads := [] |} =
  (Ret (0, Some ErrOpen), repeat x00 13,
   {| rs_src := {| pending := [skipn 20 frame_a] |}; rs_reads := [29] |})
  /\
  Read reader16 (repeat x00 13)
       {| rs_src := firstn 5 frame_a; rs_reads := [] |} =
  (Panics SliceBounds, repeat x00 13, {| rs_src := []; rs_reads := [29] |})
  /\
  Read reader16 (repeat x00 13)
       {| rs_src := firstn 28 frame_a; rs_reads := [] |} =
  (Ret (0, Some ErrOpen), repeat x00 13,
   {| rs_src := []; rs_reads := [29] |}).
Proof. repeat split; vm_compute; reflexivity. Qed.

(* ================================================================== *)
(** ** The stream writer *)

(** C3, on the code. [Write] of the one-byte input "a" on a writer with a
    16-byte buffer never returns, whatever the sink and the random source:
    the loop is still running after any number of iterations, and the sink
    is never written. *)
Theorem Write_short_input_never_returns
  (S R : Type) (A : AEAD) (W : IoWriter S) (RR : RandReader R)
  (sink : S) (rnd : R) (n : nat) :
  NewWriter (Some demo_key) 16 = Ret (Some writer16, None) /\
  Write n writer16 [x61] sink rnd = None /\
  ws_writes (call_progress n (Method_Write [x61]) writer16 sink rnd) = [].
Proof.
  split; [reflexivity|]. split.
  - apply Write_short_never_returns. cbn. lia.
  - apply (Write_short_progress (w_gcm writer16) [x61]
             (Write_init sink rnd (w_buf writer16)) n).
    cbn. lia.
Qed.

(** C2, on the code. With a 16-byte buffer, a sink that keeps everything
    and a random source that never fails, [Write] of the 17-byte input
    "ABCDEFGHIJKLMNOPQ" never returns; after [k] iterations the sink holds
    [k] copies of the first sixteen plaintext bytes; and a [Reader] with the
    same key and size cannot decode what the sink received. *)
Theorem stream_roundtrip_fails :
  NewWriter (Some demo_key) 16 = Ret (Some writer16, None) /\
  NewReader (Some demo_key) 16 = Ret (Some reader16, None) /\
  (forall n, Write n writer16 (chunk16 ++ [x51]) ([] : list byte) 0 = None) /\
  (forall k,
      ws_sink (call_progress k (Method_Write (chunk16 ++ [x51])) writer16
                 ([] : list byte) 0)
      = concat (repeat chunk16 k)) /\
  Read reader16 (repeat x00 16) {| rs_src := chunk16; rs_reads := [] |} =
  (Ret (0, Some ErrOpen), repeat x00 16,
   {| rs_src := []; rs_reads := [32] |}).
Proof.
  split; [reflexivity|]. split; [reflexivity|].
  assert (H : forall k,
             Write_loop k demo_gcm (chunk16 ++ [x51])
               (Write_init ([] : list byte) 0 (w_buf writer16)) = None /\
             ws_sink (Write_progress k demo_gcm (chunk16 ++ [x51])
                        (Write_init ([] : list byte) 0 (w_buf writer16)))
             = [] ++ concat (repeat chunk16 k)).
  { intro k. apply Write_repeats_first_chunk; cbn; lia. }
  split; [|split].
  - intro n. apply H.
  - intro k. apply H.
  - vm_compute. reflexivity.
Qed.

(** C5, on the code. A flush draws one nonce and performs one sink write,
    but of the 16 bytes of the plaintext buffer, not of the 44-byte frame
    nonce || ciphertext || tag. *)
Theorem flush_writes_plaintext_buffer :
  let st := call_progress 1 (Method_Write chunk16) writer16
              ([] : list byte) tape24 in
  let nonce := firstn 12 tape24 in
  let frame := nonce ++ aead_seal (key_bytes demo_key) nonce chunk16 [] in
  ws_nonces st = [nonce] /\
  ws_writes st = [chunk16] /\
  ws_sink st = chunk16 /\
  length chunk16 = 16 /\
  length frame = 44.
Proof. repeat split; vm_compute; reflexivity. Qed.

(** C4, the claim as stated fails: with a 16-byte buffer holding the
    one-byte remainder "a", no method of the [Writer], run for any number
    of steps, hands the sink a frame of 12 + 1 + 16 bytes. *)
Lemma no_method_flushes_remainder :
  ~ exists (m : WriterMethod) (k : nat) (frame : list byte),
      In frame
         (ws_writes
            (call_progress k m
               {| w_gcm := demo_gcm; w_buf := x61 :: repeat x00 15 |}
               ([] : list byte) 0)) /\
      length frame = gcmStandardNonceSize + 1 + gcmTagSize.
Proof.
  intros (m & k & frame & Hin & Hlen).
  destruct m as [q]. unfold call_progress in Hin.
  destruct (Write_progress_writes (A := ParityAEAD) demo_gcm q
              (Write_init ([] : list byte) 0 (x61 :: repeat x00 15)) k)
    as (_ & l & Hw & Hall).
  cbn [w_gcm w_buf] in Hin. rewrite Hw in Hin.
  cbn [Write_init ws_writes app] in Hin.
  rewrite Forall_forall in Hall. apply Hall in Hin.
  rewrite Hin in Hlen. vm_compute in Hlen. discriminate.
Qed.

(** C4, amended. The [Writer] has no finish operation: [Write] is its only
    method, and while the input is shorter than the buffer no sink write is
    performed and no nonce is drawn at any point of the call: the bytes stay
    in the buffer and never reach the sink. *)
Theorem partial_chunk_never_emitted {S R : Type} {A : AEAD}
  {W : IoWriter S} {RR : RandReader R}
  (w : Writer) (p : list byte) (sink : S) (rnd : R) :
  length p < length (w_buf w) ->
  (forall m : WriterMethod, exists q, m = Method_Write q) /\
  (forall k,
      let st := call_progress k (Method_Write p) w sink rnd in
      ws_writes st = [] /\ ws_sink st = sink /\ ws_nonces st = []).
Proof.
  intro Hp. split.
  - intros [q]. now exists q.
  - intro k. cbv zeta. unfold call_progress.
    destruct (Write_short_progress (w_gcm w) p
                (Write_init sink rnd (w_buf w)) k Hp)
      as (Hs & Hw & _ & Hn & _).
    auto.
Qed.

Lemma partial_chunk_never_emitted_witness :
  length [x61] < length (w_buf writer16) /\
  ws_sink (call_progress 5 (Method_Write [x61]) writer16
             ([] : list byte) tape24) = [].
Proof.
  split; [vm_compute; lia|].
  apply (@partial_chunk_never_emitted (list byte) (list byte) ParityAEAD
           BufferSink TapeRand writer16 [x61] [] tape24);
    vm_compute; lia.
Defined.

(* ================================================================== *)
(** * Further properties of the code *)

(** ** Constructors and the nil key *)



(** X3. With a nil key every entry point of the package panics on the nil
    pointer, whatever its other arguments, before it draws a nonce or
    allocates a buffer. *)
Theorem nil_key_panics {A : AEAD} {R : Type} {RR : RandReader R}
  (plaintext ciphertext : list byte) (rnd : R) (bufSize : Z) :
  Encrypt plaintext None rnd = (Panics NilDereference, rnd) /\
  Decrypt ciphertext None = Panics NilDereference /\
  NewWriter None bufSize = Panics NilDereference /\
  NewReader None bufSize = Panics NilDereference.
Proof. repeat split. Qed.

(** ** The nonce generator and [Encrypt] *)

(** X4. When [newNonce] returns, the nonce has exactly the requested size
    and is what one [io.ReadFull] of that size on the random source
    delivered, without error. *)
Theorem newNonce_exact_size {R : Type} {RR : RandReader R}
  (size : nat) (rnd rnd' : R) (nonce : list byte) :
  newNonce size rnd = (Ret nonce, rnd') ->
  length nonce = size /\ rand_ReadFull rnd size = (rnd', nonce, None).
Proof.
  unfold newNonce.
  destruct (rand_ReadFull rnd size) as [[r n] [e|]]; [discriminate|].
  destruct (Nat.eqb_spec (length n) size); [|discriminate].
  intros [= <- <-]. auto.
Qed.

Lemma newNonce_exact_size_witness :
  newNonce 12 tape24 = (Ret (firstn 12 tape24), skipn 12 tape24) /\
  length (firstn 12 tape24) = 12.
Proof.
  split; [reflexivity|].
  apply (@newNonce_exact_size (list byte) TapeRand 12 tape24
           (skipn 12 tape24) (firstn 12 tape24)).
  reflexivity.
Defined.

(** X5. Whenever [Encrypt] returns, its error is nil, the key is not nil,
    and the first 12 bytes of the ciphertext are the bytes that a single
    12-byte read of the random source delivered. *)
Theorem Encrypt_returns_no_error {A : AEAD} {R : Type} {RR : RandReader R}
  (P : list byte) (key : key_ptr) (rnd rnd' : R)
  (c : list byte) (e : option error) :
  Encrypt P key rnd = (Ret (c, e), rnd') ->
  e = None /\ key <> None /\
  rand_ReadFull rnd gcmStandardNonceSize
  = (rnd', firstn gcmStandardNonceSize c, None).
Proof.
  destruct key as [K|]; [|discriminate].
  unfold Encrypt. rewrite newGCM_key. cbn [NonceSize].
  unfold newNonce.
  destruct (rand_ReadFull rnd gcmStandardNonceSize) as [[r nonce] [err|]];
    [discriminate|].
  destruct (Nat.eqb_spec (length nonce) gcmStandardNonceSize) as [Hl|];
    [|discriminate].
  unfold Seal. rewrite Hl, Nat.eqb_refl. cbn [bind].
  intros [= <- <- <-].
  rewrite firstn_exact by assumption.
  repeat split. discriminate.
Qed.

Lemma Encrypt_returns_no_error_witness :
  Encrypt chunk16 (Some demo_key) tape24
  = (Ret (firstn 12 tape24
          ++ aead_seal (key_bytes demo_key) (firstn 12 tape24) chunk16 [],
          None), skipn 12 tape24) /\
  rand_ReadFull tape24 gcmStandardNonceSize
  = (skipn 12 tape24, firstn 12 tape24, None).
Proof.
  split; [reflexivity|].
  apply (@Encrypt_returns_no_error ParityAEAD (list byte) TapeRand
           chunk16 (Some demo_key) tape24 (skipn 12 tape24)
           (firstn 12 tape24
            ++ aead_seal (key_bytes demo_key) (firstn 12 tape24) chunk16 [])
           None).
  reflexivity.
Defined.

(** X6. When the random source reports an error, or delivers a number of
    bytes other than 12, [Encrypt] panics and returns no ciphertext. *)
Theorem Encrypt_panics_without_nonce {A : AEAD} {R : Type}
  {RR : RandReader R}
  (P : list byte) (K : key32) (rnd rnd' : R)
  (bs : list byte) (err : option error) :
  rand_ReadFull rnd gcmStandardNonceSize = (rnd', bs, err) ->
  err <> None \/ length bs <> gcmStandardNonceSize ->
  Encrypt P (Some K) rnd = (Panics NoncePanic, rnd').
Proof.
  intros Hr Hbad. unfold Encrypt. rewrite newGCM_key. cbn [NonceSize].
  unfold newNonce. rewrite Hr.
  destruct err as [e|]; [reflexivity|].
  destruct Hbad as [Hbad|Hbad]; [congruence|].
  destruct (Nat.eqb_spec (length bs) gcmStandardNonceSize);
    [contradiction | reflexivity].
Qed.

Lemma Encrypt_panics_without_nonce_witness :
  rand_ReadFull (firstn 5 tape24) gcmStandardNonceSize
  = ([], firstn 5 tape24, Some ErrUnexpectedEOF) /\
  Encrypt chunk16 (Some demo_key) (firstn 5 tape24)
  = (Panics NoncePanic, []).
Proof.
  split; [reflexivity|].
  apply (@Encrypt_panics_without_nonce ParityAEAD (list byte) TapeRand
           chunk16 demo_key (firstn 5 tape24) [] (firstn 5 tape24)
           (Some ErrUnexpectedEOF)); [reflexivity|].
  left. discriminate.
Defined.

(** ** The stream reader *)

Lemma copy_rest (dst src : list byte) :
  skipn (fst (copy dst src)) (snd (copy dst src))
  = skipn (fst (copy dst src)) dst /\
  firstn (fst (copy dst src)) (snd (copy dst src))
  = firstn (fst (copy dst src)) src.
Proof.
  unfold copy; cbn [fst snd].
  set (n := Nat.min (length dst) (length src)).
  assert (Hn : length (firstn n src) = n).
  { rewrite length_firstn. subst n. lia. }
  split.
  - now rewrite skipn_exact.
  - now rewrite firstn_exact.
Qed.

Section ReaderProperties.
Context {S : Type} {A : AEAD} {IR : IoReader S}.

(** X7. What [Read] does to the destination [p]: when it returns an error
    or panics, the count is 0 and [p] is untouched; when it returns the nil
    error with count [n], then [n <= len(p)], [p] keeps its length, and the
    bytes of [p] from [n] on are untouched. *)
Theorem Read_destination (r : Reader) (p : list byte) (st : ReadState S) :
  let '(res, p', _) := Read r p st in
  match res with
  | Panics _ => p' = p
  | Ret (n, Some _) => n = 0 /\ p' = p
  | Ret (n, None) =>
      n <= length p /\ length p' = length p /\ skipn n p' = skipn n p
  end.
Proof.
  unfold Read.
  destruct (NonceSize (r_gcm r)) as [size|why]; [|reflexivity].
  destruct (length p <? size); [now split|].
  destruct (Overhead (r_gcm r)) as [overhead|why]; [|reflexivity].
  destruct (io_Read (rs_src st) (length p + overhead))
    as [[src' data] [e|]]; [now split|].
  destruct (_ <? length data); [reflexivity|].
  destruct (length data <? size); [reflexivity|].
  destruct (Open _ _ _ _ _) as [[b [e|]]|why];
    [now split | | reflexivity].
  pose proof (copy_length p b) as Hlen.
  pose proof (copy_rest p b) as [Hrest _].
  pose proof (eq_refl : fst (copy p b) = Nat.min (length p) (length b)) as Hn.
  destruct (copy p b) as [m p']. cbn [fst snd] in *.
  repeat split; [lia | assumption | assumption].
Qed.

(** X8. A destination shorter than the nonce size is refused with the error
    "buffer can't be smaller then gcm.NonceSize", and the source is not
    read. *)
Theorem Read_small_destination (key : key_ptr) (bufSize : Z) (r : Reader)
  (p : list byte) (st : ReadState S) :
  NewReader key bufSize = Ret (Some r, None) ->
  length p < gcmStandardNonceSize ->
  Read r p st = (Ret (0, Some ErrBufferTooSmall), p, st).
Proof.
  intros Hnew Hp.
  apply NewReader_gcm in Hnew as (K & _ & Hg).
  unfold Read. rewrite Hg. cbn [NonceSize].
  destruct (Nat.ltb_spec (length p) gcmStandardNonceSize); [reflexivity|lia].
Qed.

(** X9. An error of the source is returned as it is, with count 0: the
    bytes that the source delivered together with the error are dropped. *)
Theorem Read_source_error (key : key_ptr) (bufSize : Z) (r : Reader)
  (p : list byte) (st : ReadState S) src' data e :
  NewReader key bufSize = Ret (Some r, None) ->
  gcmStandardNonceSize <= length p ->
  io_Read (rs_src st) (length p + gcmTagSize) = (src', data, Some e) ->
  Read r p st =
  (Ret (0, Some e), p,
   {| rs_src := src'; rs_reads := rs_reads st ++ [length p + gcmTagSize] |}).
Proof.
  intros Hnew Hp Hread.
  apply NewReader_gcm in Hnew as (K & _ & Hg).
  destruct r as [g buf]; cbn [r_gcm] in Hg; subst g.
  rewrite Read_gcm by assumption. cbv zeta. now rewrite Hread.
Qed.

(** X10. When the source delivers fewer than 12 bytes without an error
    (zero included), [Read] panics with a slice bound out of range. *)
Theorem Read_short_read_panics (key : key_ptr) (bufSize : Z) (r : Reader)
  (p : list byte) (st : ReadState S) src' data :
  NewReader key bufSize = Ret (Some r, None) ->
  gcmStandardNonceSize <= length p ->
  io_Read (rs_src st) (length p + gcmTagSize) = (src', data, None) ->
  length data < gcmStandardNonceSize ->
  Read r p st =
  (Panics SliceBounds, p,
   {| rs_src := src'; rs_reads := rs_reads st ++ [length p + gcmTagSize] |}).
Proof.
  intros Hnew Hp Hread Hshort.
  apply NewReader_gcm in Hnew as (K & _ & Hg).
  destruct r as [g buf]; cbn [r_gcm] in Hg; subst g.
  rewrite Read_gcm by assumption. cbv zeta. rewrite Hread.
  destruct (_ <? length data); [reflexivity|].
  destruct (Nat.ltb_spec (length data) gcmStandardNonceSize);
    [reflexivity | lia].
Qed.

(** X11. [Read] treats the bytes of one read of the source as [Decrypt]
    treats a whole ciphertext: when the source delivers between 12 and
    [len(p) + 16] bytes, [Read] fails with the error of [Decrypt] on those
    bytes, or copies the plaintext of [Decrypt] into [p]. *)
Theorem Read_agrees_with_Decrypt (K : key32) (bufSize : Z) (r : Reader)
  (p : list byte) (st : ReadState S) src' data pt err :
  NewReader (Some K) bufSize = Ret (Some r, None) ->
  io_Read (rs_src st) (length p + gcmTagSize) = (src', data, None) ->
  gcmStandardNonceSize <= length p ->
  gcmStandardNonceSize <= length data <= length p + gcmTagSize ->
  Decrypt data (Some K) = Ret (pt, err) ->
  Read r p st =
  (match err with
   | Some e => (Ret (0, Some e), p)
   | None => (Ret (fst (copy p pt), None), snd (copy p pt))
   end,
   {| rs_src := src'; rs_reads := rs_reads st ++ [length p + gcmTagSize] |}).
Proof.
  intros Hnew Hread Hp [Hlo Hhi] Hdec.
  apply NewReader_gcm in Hnew as (K' & [= <-] & Hg).
  destruct r as [g buf]; cbn [r_gcm] in Hg; subst g.
  rewrite Read_gcm by assumption. cbv zeta. rewrite Hread.
  destruct (Nat.ltb_spec (length p + gcmTagSize) (length data)); [lia|].
  rewrite Decrypt_key in Hdec.
  destruct (Nat.ltb_spec (length data) gcmStandardNonceSize); [lia|].
  cbn [gcm_key].
  destruct aead_open; injection Hdec as <- <-; reflexivity.
Qed.

End ReaderProperties.

Lemma Read_small_destination_witness :
  NewReader (Some demo_key) 16 = Ret (Some reader16, None) /\
  length (repeat x00 5) < gcmStandardNonceSize /\
  Read reader16 (repeat x00 5) {| rs_src := frame_a; rs_reads := [] |}
  = (Ret (0, Some ErrBufferTooSmall), repeat x00 5,
     {| rs_src := frame_a; rs_reads := [] |}).
Proof.
  split; [reflexivity|]. split; [vm_compute; lia|].
  apply (@Read_small_destination (list byte) ParityAEAD SliceSource
           (Some demo_key) 16%Z reader16 (repeat x00 5)
           {| rs_src := frame_a; rs_reads := [] |});
    [reflexivity | vm_compute; lia].
Defined.

Lemma Read_source_error_witness :
  NewReader (Some demo_key) 16 = Ret (Some reader16, None) /\
  io_Read ([] : list byte) (length (repeat x00 16) + gcmTagSize)
  = ([], [], Some EOF) /\
  Read reader16 (repeat x00 16) {| rs_src := []; rs_reads := [] |}
  = (Ret (0, Some EOF), repeat x00 16,
     {| rs_src := []; rs_reads := [32] |}).
Proof.
  split; [reflexivity|]. split; [reflexivity|].
  apply (@Read_source_error (list byte) ParityAEAD SliceSource
           (Some demo_key) 16%Z reader16 (repeat x00 16)
           {| rs_src := []; rs_reads := [] |} [] [] EOF);
    [reflexivity | vm_compute; lia | reflexivity].
Defined.

Lemma Read_short_read_panics_witness :
  NewReader (Some demo_key) 16 = Ret (Some reader16, None) /\
  length (firstn 5 frame_a) < gcmStandardNonceSize /\
  Read reader16 (repeat x00 16)
       {| rs_src := firstn 5 frame_a; rs_reads := [] |}
  = (Panics SliceBounds, repeat x00 16,
     {| rs_src := []; rs_reads := [32] |}).
Proof.
  split; [reflexivity|]. split; [vm_compute; lia|].
  apply (@Read_short_read_panics (list byte) ParityAEAD SliceSource
           (Some demo_key) 16%Z reader16 (repeat x00 16)
           {| rs_src := firstn 5 frame_a; rs_reads := [] |}
           [] (firstn 5 frame_a));
    [reflexivity | vm_compute; lia | reflexivity | vm_compute; lia].
Defined.

Lemma Read_agrees_with_Decrypt_witness :
  Decrypt (flip_bit 3 frame_a) (Some demo_key) = Ret ([], Some ErrOpen) /\
  Read reader16 (repeat x00 16)
       {| rs_src := flip_bit 3 frame_a; rs_reads := [] |}
  = (Ret (0, Some ErrOpen), repeat x00 16,
     {| rs_src := []; rs_reads := [32] |}).
Proof.
  split; [reflexivity|].
  apply (@Read_agrees_with_Decrypt (list byte) ParityAEAD SliceSource
           demo_key 16%Z reader16 (repeat x00 16)
           {| rs_src := flip_bit 3 frame_a; rs_reads := [] |}
           [] (flip_bit 3 frame_a) [] (Some ErrOpen));
    try reflexivity; vm_compute; lia.
Defined.

(** X12. [Read] decodes what [Encrypt] produced: when the source delivers a
    ciphertext of [Encrypt] whole in one read and the destination has at
    least [len(P) + 12] bytes, [Read] returns [len(P)] and the nil error,
    and the destination starts with the plaintext [P]. *)
Theorem Read_Encrypt_roundtrip {A : AEAD} {L : AEADLaws A}
  {R : Type} {RR : RandReader R} {S : Type} {IR : IoReader S}
  (P : list byte) (K : key32) (rnd rnd' : R) (c : list byte)
  (e : option error) (bufSize : Z) (r : Reader) (p : list byte)
  (st : ReadState S) (src' : S) :
  Encrypt P (Some K) rnd = (Ret (c, e), rnd') ->
  NewReader (Some K) bufSize = Ret (Some r, None) ->
  length P + gcmStandardNonceSize <= length p ->
  io_Read (rs_src st) (length p + gcmTagSize) = (src', c, None) ->
  Read r p st =
  (Ret (length P, None), P ++ skipn (length P) p,
   {| rs_src := src'; rs_reads := rs_reads st ++ [length p + gcmTagSize] |}).
Proof.
  intros HE Hnew Hp Hread.
  apply Encrypt_returns in HE as (_ & nonce & Hl & ->).
  assert (Hc : length (nonce ++ aead_seal (key_bytes K) nonce P [])
               = length P + gcmStandardNonceSize + gcmTagSize).
  { unfold aead_seal. rewrite !length_app, Hl, ct_length, tag_length. lia. }
  apply NewReader_gcm in Hnew as (K' & [= <-] & Hg).
  destruct r as [g buf]; cbn [r_gcm] in Hg; subst g.
  rewrite Read_gcm by lia. cbv zeta. rewrite Hread, Hc.
  destruct (Nat.ltb_spec (length p + gcmTagSize)
              (length P + gcmStandardNonceSize + gcmTagSize)); [lia|].
  destruct (Nat.ltb_spec (length P + gcmStandardNonceSize + gcmTagSize)
              gcmStandardNonceSize); [lia|].
  rewrite firstn_exact, skipn_exact by assumption.
  cbn [gcm_key]. rewrite open_seal by assumption.
  unfold copy; cbn [fst snd].
  rewrite Nat.min_r by lia. now rewrite firstn_all.
Qed.

Lemma Read_Encrypt_roundtrip_witness :
  Encrypt [x61] (Some demo_key) tape24
  = (Ret (frame_a, None), skipn 12 tape24) /\
  Read reader16 (repeat x00 13) {| rs_src := frame_a; rs_reads := [] |}
  = (Ret (1, None), x61 :: repeat x00 12,
     {| rs_src := []; rs_reads := [29] |}).
Proof.
  split; [reflexivity|].
  apply (@Read_Encrypt_roundtrip ParityAEAD ParityAEAD_laws
           (list byte) TapeRand (list byte) SliceSource
           [x61] demo_key tape24 (skipn 12 tape24) frame_a None 16%Z
           reader16 (repeat x00 13)
           {| rs_src := frame_a; rs_reads := [] |} []);
    reflexivity.
Defined.

(** ** The stream writer *)

Lemma wrap64_small (z : Z) :
  (- 2 ^ 63 <= z < 2 ^ 63)%Z -> wrap64 z = z.
Proof.
  intro Hz. unfold wrap64.
  rewrite Z.mod_small by lia. lia.
Qed.

Section WriterProperties.
Context {S R : Type} {A : AEAD} {W : IoWriter S} {RR : RandReader R}.

(** An iteration either leaves the records of sink writes and of nonces
    alone, or adds to them one sink write, of the first [len(w.buf)] bytes
    of [p], and one nonce of 12 bytes. *)
Lemma Write_iter_trace gcm (p : list byte) (st : WriteState S R) :
  let st' := iter_state (Write_iter gcm p st) in
  (ws_writes st' = ws_writes st /\ ws_nonces st' = ws_nonces st) \/
  (length (ws_buf st) <= length p /\
   ws_writes st' = ws_writes st ++ [firstn (length (ws_buf st)) p] /\
   exists nonce, length nonce = gcmStandardNonceSize /\
                 ws_nonces st' = ws_nonces st ++ [nonce]).
Proof.
  unfold Write_iter.
  destruct (copy (ws_buf st) p) as [n buf'] eqn:Ecopy.
  destruct (Nat.eqb_spec n (length (ws_buf st))) as [Hn|Hn].
  2: { cbn. auto. }
  destruct gcm as [g|]; cbn [NonceSize].
  2: { cbn. auto. }
  destruct (newNonce gcmStandardNonceSize (ws_rand st))
    as [[nonce|why] rnd'] eqn:Enonce.
  2: { cbn. auto. }
  destruct (Seal (Some g) nonce nonce p []) as [ciphertext|why].
  2: { cbn. auto. }
  destruct (io_Write (ws_sink st) buf') as [[sink' nw] err] eqn:Ew.
  assert (Hfull : length (ws_buf st) <= length p /\
                  buf' = firstn (length (ws_buf st)) p).
  { unfold copy in Ecopy. injection Ecopy as Hmin Hbuf.
    rewrite Hn in Hmin.
    assert (length (ws_buf st) <= length p) by lia.
    split; [assumption|].
    rewrite <- Hbuf, Nat.min_l, skipn_all, app_nil_r by assumption.
    reflexivity. }
  destruct Hfull as [Hle ->].
  apply newNonce_returns in Enonce.
  right. destruct err; cbn; (split; [assumption|]);
    (split; [reflexivity|]); now exists nonce.
Qed.

(** X13. At every point of a call [w.Write(p)], each slice that the sink
    has been handed is the first [len(w.buf)] bytes of [p] as they are, and
    as many nonces have been drawn as sink writes made. *)
Theorem Write_hands_sink_plaintext (w : Writer) (p : list byte)
  (sink : S) (rnd : R) (k : nat) :
  let st := call_progress k (Method_Write p) w sink rnd in
  Forall (fun b => b = firstn (length (w_buf w)) p) (ws_writes st) /\
  length (ws_nonces st) = length (ws_writes st) /\
  Forall (fun nonce => length nonce = gcmStandardNonceSize) (ws_nonces st) /\
  (ws_writes st <> [] -> length (w_buf w) <= length p).
Proof.
  cbv zeta. unfold call_progress.
  assert (H : forall k (st : WriteState S R),
             let st' := Write_progress k (w_gcm w) p st in
             length (ws_buf st') = length (ws_buf st) /\
             exists l ns,
               ws_writes st' = ws_writes st ++ l /\
               ws_nonces st' = ws_nonces st ++ ns /\
               Forall (fun b => b = firstn (length (ws_buf st)) p) l /\
               length ns = length l /\
               Forall (fun nonce => length nonce = gcmStandardNonceSize) ns /\
               (l <> [] -> length (ws_buf st) <= length p)).
  { assert (Hnil : forall st0 : WriteState S R,
               exists l ns : list (list byte),
                 ws_writes st0 = ws_writes st0 ++ l /\
                 ws_nonces st0 = ws_nonces st0 ++ ns /\
                 Forall (fun b => b = firstn (length (ws_buf st0)) p) l /\
                 length ns = length l /\
                 Forall (fun nonce => length nonce = gcmStandardNonceSize) ns /\
                 (l <> [] -> length (ws_buf st0) <= length p)).
    { intro st0. exists [], []. rewrite !app_nil_r.
      split; [reflexivity|]. split; [reflexivity|].
      split; [constructor|]. split; [reflexivity|].
      split; [constructor|]. congruence. }
    clear k. induction k as [|k IH]; intro st; cbn [Write_progress].
    - split; [reflexivity | apply Hnil].
    - destruct (length p =? 0); [split; [reflexivity | apply Hnil]|].
      pose proof (Write_iter_effect (w_gcm w) p st) as [Hlen _].
      pose proof (Write_iter_trace (w_gcm w) p st) as Htr.
      assert (Hone : exists l ns,
                 ws_writes (iter_state (Write_iter (w_gcm w) p st))
                 = ws_writes st ++ l /\
                 ws_nonces (iter_state (Write_iter (w_gcm w) p st))
                 = ws_nonces st ++ ns /\
                 Forall (fun b => b = firstn (length (ws_buf st)) p) l /\
                 length ns = length l /\
                 Forall (fun nonce => length nonce = gcmStandardNonceSize) ns /\
                 (l <> [] -> length (ws_buf st) <= length p)).
      { destruct Htr as [[Hw Hn]|(Hle & Hw & nonce & Hl & Hn)].
        - exists [], []. rewrite !app_nil_r.
          split; [exact Hw|]. split; [exact Hn|].
          split; [constructor|]. split; [reflexivity|].
          split; [constructor|]. congruence.
        - exists [firstn (length (ws_buf st)) p], [nonce].
          split; [exact Hw|]. split; [exact Hn|].
          split; [constructor; [reflexivity|constructor]|].
          split; [reflexivity|].
          split; [constructor; [exact Hl|constructor]|].
          intros _. exact Hle. }
      destruct (Write_iter (w_gcm w) p st) as [st1|t e st1|why st1];
        cbn [iter_state] in *; try (split; assumption).
      destruct (IH st1)
        as [Hlen' (l2 & ns2 & Hw2 & Hn2 & Hall2 & Hc2 & Hnl2 & Hle2)].
      destruct Hone as (l1 & ns1 & Hw1 & Hn1 & Hall1 & Hc1 & Hnl1 & Hle1).
      split; [congruence|].
      exists (l1 ++ l2), (ns1 ++ ns2).
      rewrite Hlen in Hall2, Hle2.
      split; [rewrite Hw2, Hw1; now rewrite app_assoc|].
      split; [rewrite Hn2, Hn1; now rewrite app_assoc|].
      split; [now apply Forall_app|].
      split; [rewrite !length_app; lia|].
      split; [now apply Forall_app|].
      intro Hne. destruct l1 as [|x l1].
      + apply Hle2. exact Hne.
      + apply Hle1. discriminate. }
  destruct (H k (Write_init sink rnd (w_buf w)))
    as [_ (l & ns & Hw & Hn & Hall & Hc & Hnl & Hle)].
  cbn [Write_init ws_writes ws_nonces ws_buf app] in *.
  rewrite Hw, Hn. auto.
Qed.

(** X14. [Write] returns the nil error only for the empty input, and then
    it returns 0 having written nothing, drawn no nonce and left the buffer
    as it was. *)
Theorem Write_nil_error_only_empty (w : Writer) (p : list byte)
  (sink : S) (rnd : R) (fuel : nat) total st' :
  Write fuel w p sink rnd = Some (Ret (total, None), st') ->
  p = [] /\ total = 0%Z /\ st' = Write_init sink rnd (w_buf w).
Proof.
  unfold Write. intro Hw.
  pose proof (Write_returns_nil_only_empty _ _ _ _ Hw) as ->.
  destruct fuel as [|fuel]; [discriminate|].
  rewrite Write_empty_input in Hw. injection Hw as <- <-. auto.
Qed.

(** X15. When the sink reports an error on the first flush, [Write]
    returns that error and the count [len(w.buf) + nw], where [nw] is the
    count of the failed sink write: the bytes the sink took are counted on
    top of the bytes copied into the buffer. *)
Theorem Write_sink_error_count (w : Writer) (g : GCM) (p : list byte)
  (sink sink' : S) (rnd rnd' : R) (nonce : list byte) (nw : Z) (e : error)
  (fuel : nat) :
  w_gcm w = Some g ->
  0 < length p ->
  length (w_buf w) <= length p ->
  newNonce gcmStandardNonceSize rnd = (Ret nonce, rnd') ->
  io_Write sink (firstn (length (w_buf w)) p) = (sink', nw, Some e) ->
  (0 <= nw <= Z.of_nat (length (w_buf w)))%Z ->
  (Z.of_nat (length (w_buf w)) < 2 ^ 62)%Z ->
  exists st',
    Write (Datatypes.S fuel) w p sink rnd
    = Some (Ret ((Z.of_nat (length (w_buf w)) + nw)%Z, Some e), st') /\
    ws_sink st' = sink' /\
    ws_writes st' = [firstn (length (w_buf w)) p] /\
    ws_nonces st' = [nonce].
Proof.
  intros Hg Hp Hle Hnonce Hw Hnw Hbig.
  unfold Write. rewrite Hg. cbn [Write_loop].
  destruct (Nat.eqb_spec (length p) 0); [lia|].
  rewrite (@Write_iter_flush _ _ _ _ _ g p
             (Write_init sink rnd (w_buf w)) nonce rnd' sink' nw (Some e)
             Hle Hnonce Hw).
  cbn [Write_init ws_total ws_buf ws_writes ws_nonces app].
  rewrite (@wrap64_small (0 + Z.of_nat (length (w_buf w)))%Z) by lia.
  rewrite wrap64_small by lia.
  eexists. split; [reflexivity|]. auto.
Qed.

End WriterProperties.

Lemma Write_nil_error_only_empty_witness :
  Write 1 writer16 [] ([] : list byte) tape24
  = Some (Ret (0%Z, None), Write_init [] tape24 (w_buf writer16)) /\
  ([] : list byte) = [].
Proof.
  split; [reflexivity|].
  apply (@Write_nil_error_only_empty (list byte) (list byte) ParityAEAD
           BufferSink TapeRand writer16 [] [] tape24 1 0%Z
           (Write_init [] tape24 (w_buf writer16))).
  reflexivity.
Defined.

Lemma Write_sink_error_count_witness :
  io_Write {| room := 10; stored := [] |} (firstn 16 chunk16)
  = ({| room := 0; stored := firstn 10 chunk16 |}, 10%Z, Some (ErrIO 28)) /\
  exists st',
    Write 1 writer16 chunk16 {| room := 10; stored := [] |} tape24
    = Some (Ret (26%Z, Some (ErrIO 28)), st') /\
    ws_sink st' = {| room := 0; stored := firstn 10 chunk16 |} /\
    ws_writes st' = [chunk16] /\
    ws_nonces st' = [firstn 12 tape24].
Proof.
  split; [reflexivity|].
  apply (@Write_sink_error_count limited (list byte) ParityAEAD
           LimitedSink TapeRand writer16 {| gcm_key := key_bytes demo_key |}
           chunk16 {| room := 10; stored := [] |}
           {| room := 0; stored := firstn 10 chunk16 |}
           tape24 (skipn 12 tape24) (firstn 12 tape24) 10%Z (ErrIO 28) 0);
    first [ reflexivity | vm_compute; lia
          | vm_compute; split; discriminate ].
Defined.

(** ** The tests: TestSmall and notEqual *)

(** X16. [TestSmall] passes: with an AEAD that meets its contract and a
    random source that always fills the buffer it is given, every one of
    the ten rounds draws a key and five bytes, encrypts, decrypts and finds
    the data again. *)
Theorem TestSmall_passes {A : AEAD} {L : AEADLaws A}
  {R : Type} {RR : RandReader R} (rnd : R) :
  (forall (r : R) (n : nat),
      exists r' bs, rand_ReadFull r n = (r', bs, None) /\ length bs = n) ->
  fst (TestSmall rnd) = Pass.
Proof.
  intro Hrand. unfold TestSmall.
  generalize smallTimes as times. intro times. revert rnd.
  induction times as [|times IH]; intro rnd; cbn [TestSmall_loop];
    [reflexivity|].
  unfold randKey.
  destruct (Hrand rnd 32) as (r1 & kb & -> & _).
  unfold randBytes.
  destruct (Hrand r1 smallSize) as (r2 & db & -> & _).
  destruct (Hrand r2 gcmStandardNonceSize) as (r3 & nonce & Hn & Hl).
  rewrite (Encrypt_delivers _ _ _ Hn Hl).
  rewrite Decrypt_frame by assumption.
  cbn [key_bytes]. rewrite open_seal by assumption.
  rewrite bytes_eqb_refl. apply IH.
Qed.

Lemma TestSmall_passes_witness :
  fst (@TestSmall nat ParityAEAD CounterRand 0) = Pass.
Proof.
  apply (@TestSmall_passes ParityAEAD ParityAEAD_laws nat CounterRand 0).
  intros r n.
  exists (Datatypes.S r), (repeat (if Nat.even r then x00 else x01) n).
  split; [reflexivity | apply repeat_length].
Defined.

Lemma read_into_nil (buf : list byte) : read_into buf [] = buf.
Proof.
  unfold read_into, copy; cbn [snd length].
  now rewrite Nat.min_0_r.
Qed.

Lemma read_into_short (buf data : list byte) :
  length data <= length buf ->
  read_into buf data = data ++ skipn (length data) buf.
Proof.
  intro Hle. unfold read_into, copy; cbn [snd].
  rewrite Nat.min_r by assumption. now rewrite firstn_all.
Qed.

Lemma bytes_eqb_neq (a b : list byte) : a <> b -> bytes_eqb a b = false.
Proof.
  intro Hne. destruct (bytes_eqb a b) eqn:E; [|reflexivity].
  now apply bytes_eqb_eq in E.
Qed.

(** Both readers exhausted and the buffers equal: three more rounds of
    errors at most, then nil. *)
Lemma notEqual_loop_exhausted (buf : list byte) (n e : nat) :
  5 <= e + 2 * n ->
  notEqual_loop (Datatypes.S n)
    {| ne_r1 := ([] : list byte); ne_r2 := ([] : list byte);
       ne_buf1 := buf; ne_buf2 := buf; ne_errn := e |} = Some ReturnsNil.
Proof.
  revert e; induction n as [|n IH]; intros e He; cbn [notEqual_loop ne_errn].
  - destruct (Nat.ltb_spec e 5); [lia | reflexivity].
  - destruct (Nat.ltb_spec e 5); [|reflexivity].
    unfold notEqual_iter; cbn [ne_r1 ne_r2 ne_buf1 ne_buf2 ne_errn io_Read
                               SliceSource].
    rewrite read_into_nil, bytes_eqb_refl.
    apply IH. lia.
Qed.

Lemma notEqual_loop_same_length (n : nat) :
  forall (a b buf : list byte),
    length a = n -> length b = n -> length buf = 8 ->
    exists fuel,
      notEqual_loop fuel
        {| ne_r1 := a; ne_r2 := b; ne_buf1 := buf; ne_buf2 := buf;
           ne_errn := 0 |}
      = Some (if bytes_eqb a b then ReturnsNil else ReturnsNotEqual).
Proof.
  induction n as [n IH] using lt_wf_ind. intros a b buf Ha Hb Hbuf.
  destruct a as [|x a'].
  - destruct b as [|y b']; [|cbn in *; lia].
    exists 4. cbn [bytes_eqb]. apply notEqual_loop_exhausted. lia.
  - destruct b as [|y b']; [cbn in *; lia|].
    set (a := x :: a') in *. set (b := y :: b') in *.
    assert (Hda : length (firstn 8 a) <= 8) by (rewrite length_firstn; lia).
    assert (Hdb : length (firstn 8 b) = length (firstn 8 a))
      by (rewrite !length_firstn; lia).
    assert (Hiter :
              notEqual_iter
                {| ne_r1 := a; ne_r2 := b; ne_buf1 := buf; ne_buf2 := buf;
                   ne_errn := 0 |}
              = if bytes_eqb (read_into buf (firstn 8 a))
                             (read_into buf (firstn 8 b))
                then inl {| ne_r1 := skipn 8 a; ne_r2 := skipn 8 b;
                            ne_buf1 := read_into buf (firstn 8 a);
                            ne_buf2 := read_into buf (firstn 8 b);
                            ne_errn := 0 |}
                else inr ReturnsNotEqual).
    { unfold notEqual_iter;
        cbn [ne_r1 ne_r2 ne_buf1 ne_buf2 ne_errn io_Read SliceSource].
      rewrite Hbuf. subst a b. reflexivity. }
    destruct (bytes_eqb (read_into buf (firstn 8 a))
                        (read_into buf (firstn 8 b))) eqn:E.
    + apply bytes_eqb_eq in E.
      assert (Hfirst : firstn 8 a = firstn 8 b).
      { rewrite !read_into_short in E by lia.
        rewrite Hdb in E. apply app_inv_tail in E. exact E. }
      assert (Heq : bytes_eqb a b = bytes_eqb (skipn 8 a) (skipn 8 b)).
      { destruct (bytes_eqb (skipn 8 a) (skipn 8 b)) eqn:E2.
        - apply bytes_eqb_eq in E2.
          rewrite <- (firstn_skipn 8 a), <- (firstn_skipn 8 b).
          rewrite Hfirst, E2. apply bytes_eqb_refl.
        - apply bytes_eqb_neq. intro Hab.
          rewrite Hab, bytes_eqb_refl in E2. discriminate. }
      rewrite <- Hfirst in Hiter.
      destruct (IH (length (skipn 8 a))) with
        (a := skipn 8 a) (b := skipn 8 b)
        (buf := read_into buf (firstn 8 a)) as [fuel Hfuel].
      * rewrite length_skipn. subst a. cbn [length] in *. lia.
      * reflexivity.
      * rewrite !length_skipn. lia.
      * rewrite read_into_length. assumption.
      * exists (Datatypes.S fuel).
        cbn [notEqual_loop ne_errn Nat.ltb Nat.leb].
        rewrite Hiter, Hfuel, Heq. reflexivity.
    + assert (Hne : bytes_eqb a b = false).
      { apply bytes_eqb_neq. intro Hab.
        rewrite Hab, bytes_eqb_refl in E. discriminate. }
      exists 1. cbn [notEqual_loop ne_errn Nat.ltb Nat.leb].
      rewrite Hiter, Hne. reflexivity.
Qed.

(** X17. For two byte streams of the same length, [notEqual] returns, and
    it returns [errNotEqual] exactly when the streams differ. *)
Theorem notEqual_same_length (a b : list byte) :
  length a = length b ->
  exists fuel,
    notEqual fuel a b
    = Some (if bytes_eqb a b then ReturnsNil else ReturnsNotEqual).
Proof.
  intro Hab. unfold notEqual.
  apply (notEqual_loop_same_length (n := length a)); auto.
Qed.

Lemma notEqual_same_length_witness :
  length chunk16 = length (flip_bit 100 chunk16) /\
  exists fuel,
    notEqual fuel chunk16 (flip_bit 100 chunk16) = Some ReturnsNotEqual.
Proof.
  split; [reflexivity|].
  apply (@notEqual_same_length chunk16 (flip_bit 100 chunk16)).
  reflexivity.
Defined.

Lemma firstn_repeat {T} (x : T) (k n : nat) :
  firstn k (repeat x n) = repeat x (Nat.min k n).
Proof.
  revert n; induction k as [|k IH]; intros [|n]; cbn; try reflexivity.
  now rewrite IH.
Qed.

Lemma skipn_repeat {T} (x : T) (k n : nat) :
  skipn k (repeat x n) = repeat x (n - k).
Proof.
  revert n; induction k as [|k IH]; intros [|n]; cbn; try reflexivity.
  apply IH.
Qed.

(** X18. [notEqual] does not tell an empty stream from a stream of zero
    bytes, whatever its length: it returns nil. *)
Theorem notEqual_blind_to_zeros (n : nat) :
  exists fuel,
    notEqual fuel ([] : list byte) (repeat x00 n) = Some ReturnsNil.
Proof.
  unfold notEqual.
  assert (H : forall k e m, 5 <= e + k ->
             exists fuel,
               notEqual_loop fuel
                 {| ne_r1 := ([] : list byte); ne_r2 := repeat x00 m;
                    ne_buf1 := repeat x00 8; ne_buf2 := repeat x00 8;
                    ne_errn := e |} = Some ReturnsNil).
  { induction k as [|k IH]; intros e m He.
    - exists 1. cbn [notEqual_loop ne_errn].
      destruct (Nat.ltb_spec e 5); [lia | reflexivity].
    - destruct (Nat.ltb_spec e 5) as [Hlt|Hge].
      2: { exists 1. cbn [notEqual_loop ne_errn].
           destruct (Nat.ltb_spec e 5); [lia | reflexivity]. }
      destruct m as [|m].
      + destruct (IH (Datatypes.S (Datatypes.S e)) 0) as [fuel Hfuel]; [lia|].
        exists (Datatypes.S fuel). cbn [notEqual_loop ne_errn].
        destruct (Nat.ltb_spec e 5); [|lia].
        unfold notEqual_iter;
          cbn [ne_r1 ne_r2 ne_buf1 ne_buf2 ne_errn io_Read SliceSource repeat].
        rewrite read_into_nil, bytes_eqb_refl. exact Hfuel.
      + destruct (IH (Datatypes.S e) (Datatypes.S m - 8)) as [fuel Hfuel];
          [lia|].
        exists (Datatypes.S fuel). cbn [notEqual_loop ne_errn].
        destruct (Nat.ltb_spec e 5); [|lia].
        unfold notEqual_iter;
          cbn [ne_r1 ne_r2 ne_buf1 ne_buf2 ne_errn io_Read SliceSource].
        rewrite read_into_nil.
        change (repeat x00 (Datatypes.S m)) with (x00 :: repeat x00 m).
        cbv iota beta.
        change (x00 :: repeat x00 m) with (repeat x00 (Datatypes.S m)).
        rewrite repeat_length.
        assert (Hz : read_into (repeat x00 8)
                       (firstn 8 (repeat x00 (Datatypes.S m)))
                     = repeat x00 8).
        { rewrite firstn_repeat.
          rewrite read_into_short by (rewrite !repeat_length; lia).
          rewrite repeat_length, skipn_repeat, <- repeat_app.
          f_equal. lia. }
        rewrite Hz, bytes_eqb_refl.
        rewrite skipn_repeat. exact Hfuel. }
  apply (H 5 0 n). lia.
Qed.

(** ** The test-data generator *)

Lemma concat_length_uniform {T} (c : nat) (l : list (list T)) :
  Forall (fun b => length b = c) l -> length (concat l) = length l * c.
Proof.
  induction 1 as [|b l Hb _ IH]; cbn; [reflexivity|].
  rewrite length_app, Hb, IH. reflexivity.
Qed.

Section GeneratorProperties.
Context {S R : Type} {W : IoWriter S} {RR : RandReader R}.

Hypothesis rand_delivers :
  forall (r : R) (n : nat),
    exists r' bs, rand_ReadFull r n = (r', bs, None) /\ length bs = n.

Lemma main_loop_writes (count : nat) (st : gen_state S R) :
  exists l,
    fst (main_loop count st) = MainReturns /\
    gen_writes (snd (main_loop count st)) = gen_writes st ++ l /\
    length l = count /\
    Forall (fun b => length b = length (gen_buf st)) l.
Proof.
  revert st; induction count as [|count IH]; intro st; cbn [main_loop].
  - exists []. rewrite app_nil_r. repeat split. constructor.
  - destruct (rand_delivers (gen_rand st) (length (gen_buf st)))
      as (r' & bs & -> & Hbs).
    destruct (io_Write (gen_file st) (read_into (gen_buf st) bs))
      as [[file' nw] err].
    match goal with |- context [main_loop count ?s] =>
      destruct (IH s) as (l & Hres & Hw & Hlen & Hall) end.
    cbn [gen_writes gen_buf] in *.
    rewrite read_into_length in Hall.
    exists (read_into (gen_buf st) bs :: l).
    split; [exact Hres|].
    split; [rewrite Hw; now rewrite <- app_assoc|].
    split; [cbn; now rewrite Hlen|].
    constructor; [apply read_into_length | exact Hall].
Qed.

(** X19. The generator, given the size [num] in MB and a random source
    that always fills its buffer, returns after handing the file exactly
    [num * 1024] slices of 1024 bytes, [num] MiB in all, and none when
    [num] is zero or negative; what the file's [Write] returns, its errors
    included, changes nothing. *)
Theorem main_generate_writes (num : Z) (f : S) (rnd : R) :
  (- 2 ^ 53 < num < 2 ^ 53)%Z ->
  let '(res, st) := main_generate num f rnd in
  res = MainReturns /\
  length (gen_writes st) = Z.to_nat (num * 1024) /\
  Forall (fun b => length b = 1024) (gen_writes st) /\
  length (concat (gen_writes st)) = Z.to_nat (num * 1024 * 1024).
Proof.
  intro Hnum. unfold main_generate.
  rewrite wrap64_small by lia.
  destruct (main_loop_writes (Z.to_nat (num * 1024))
              {| gen_file := f; gen_rand := rnd; gen_buf := repeat x00 1024;
                 gen_writes := [] |})
    as (l & Hres & Hw & Hlen & Hall).
  destruct (main_loop _ _) as [res st].
  cbn [fst snd gen_writes gen_buf app] in *.
  rewrite repeat_length in Hall. subst l.
  split; [exact Hres|]. split; [exact Hlen|]. split; [exact Hall|].
  rewrite (concat_length_uniform Hall), Hlen. lia.
Qed.

End GeneratorProperties.

Lemma main_generate_writes_witness :
  (- 2 ^ 53 < 1 < 2 ^ 53)%Z /\
  length (gen_writes (snd (main_generate 1 ([] : list byte) 0))) = 1024.
Proof.
  split; [lia|].
  pose proof (@main_generate_writes (list byte) nat BufferSink CounterRand
                (fun r n =>
                   ex_intro _ (Datatypes.S r)
                     (ex_intro _ (repeat (if Nat.even r then x00 else x01) n)
                        (conj eq_refl (repeat_length _ n))))
                1%Z [] 0 ltac:(lia)) as H.
  destruct (main_generate 1 ([] : list byte) 0) as [res st].
  destruct H as (_ & Hlen & _). exact Hlen.
Defined.

(** ** Non-termination of [Write] *)

(** X20. With a non-nil AEAD, a sink that never reports an error and a
    random source that always fills its buffer, [Write] of a non-empty
    input never returns: the loop is still running after any number of
    iterations. *)
Theorem Write_never_returns {S R : Type} {A : AEAD} {W : IoWriter S}
  {RR : RandReader R}
  (w : Writer) (g : GCM) (p : list byte) (sink : S) (rnd : R) (fuel : nat) :
  (forall (s : S) (b : list byte), snd (io_Write s b) = None) ->
  (forall (r : R) (n : nat),
      exists r' bs, rand_ReadFull r n = (r', bs, None) /\ length bs = n) ->
  w_gcm w = Some g ->
  p <> [] ->
  Write fuel w p sink rnd = None.
Proof.
  intros Hsink Hrand Hg Hp. unfold Write. rewrite Hg.
  generalize (Write_init sink rnd (w_buf w)) as st.
  induction fuel as [|fuel IH]; intro st; cbn [Write_loop]; [reflexivity|].
  destruct (Nat.eqb_spec (length p) 0) as [H0|_].
  { destruct p; [congruence | discriminate]. }
  destruct (Nat.lt_ge_cases (length p) (length (ws_buf st))) as [Hlt|Hge].
  - rewrite Write_iter_short by assumption. apply IH.
  - destruct (Hrand (ws_rand st) gcmStandardNonceSize)
      as (rnd' & nonce & Hr & Hl).
    destruct (io_Write (ws_sink st) (firstn (length (ws_buf st)) p))
      as [[sink' nw] err] eqn:Ew.
    assert (err = None) as ->.
    { pose proof (Hsink (ws_sink st) (firstn (length (ws_buf st)) p)) as Hs.
      now rewrite Ew in Hs. }
    rewrite (@Write_iter_flush _ _ _ _ _ g p st nonce rnd' sink' nw None
               Hge (newNonce_delivers _ Hr Hl) Ew).
    apply IH.
Qed.

Lemma Write_never_returns_witness :
  w_gcm writer16 = Some {| gcm_key := key_bytes demo_key |} /\
  chunk16 <> [] /\
  Write 1000 writer16 chunk16 ([] : list byte) 0 = None.
Proof.
  split; [reflexivity|]. split; [discriminate|].
  apply (@Write_never_returns (list byte) nat ParityAEAD BufferSink
           CounterRand writer16 {| gcm_key := key_bytes demo_key |}
           chunk16 [] 0 1000).
  - intros s b. reflexivity.
  - intros r n.
    exists (Datatypes.S r), (repeat (if Nat.even r then x00 else x01) n).
    split; [reflexivity | apply repeat_length].
  - reflexivity.
  - discriminate.
Defined.
